(** * opytimizer: Simulated Annealing and Cross-Entropy Method

    A shallow embedding of [opytimizer/optimizers/science/sa.py] and
    [opytimizer/optimizers/misc/cem.py].

    - Python floats and ints are idealised as exact rationals ([Q]); the
      two NumPy functions the optimizers call that are not rational
      ([np.exp], [np.sqrt]) are section variables.
    - One product is not idealised, because what a run does depends on
      how it is rounded: the temperature of Simulated Annealing times its
      decay, which a double takes to 0.0 when it underflows.  It is a
      section variable as well ([py_mul]).
    - Agents and NumPy arrays are mutable Python objects: they live in a
      store ([World]) and are referred to by location, so that in-place
      mutation ([a.position += noise], [agent.position[j] = ...]) and
      [copy.deepcopy] keep their meaning.
    - The random source is a tape of outcomes read through a cursor; every
      theorem quantifies over the tape, i.e. over every outcome of the
      random draws.
    - Code that raises (or yields NumPy's [inf]/[nan]) has no value in
      [Q]; such computations end in [Raise]. *)

From Stdlib Require Import QArith Qpower Lqa ZArith Lia Sorted.
From stdpp Require Import gmap list strings.

Open Scope Q_scope.

(** ** Numbers *)

(** Python's [x < y] on numbers. *)
Definition Qltb (x y : Q) : bool := negb (Qle_bool y x).

(** [np.mean]'s numerator. *)
Fixpoint Qsum (l : list Q) : Q :=
  match l with
  | [] => 0
  | x :: l' => x + Qsum l'
  end.

(** ** Python values, exceptions, results *)

(** The dynamically typed values a parameter setter can receive. *)
Inductive PyVal :=
| PyInt (z : Z)
| PyFloat (q : Q)
| PyBool (b : bool)
| PyStr (s : string)
| PyNone.

(** [isinstance(v, (float, int))]: [Some] of the numeric value when it
    holds.  [bool] is a subclass of [int] in Python. *)
Definition as_float_or_int (v : PyVal) : option Q :=
  match v with
  | PyInt z => Some (inject_Z z)
  | PyFloat q => Some q
  | PyBool b => Some (inject_Z (Z.b2z b))
  | PyStr _ | PyNone => None
  end.

(** [isinstance(v, int)]. *)
Definition as_int (v : PyVal) : option Z :=
  match v with
  | PyInt z => Some z
  | PyBool b => Some (Z.b2z b)
  | PyFloat _ | PyStr _ | PyNone => None
  end.

Inductive exn :=
| TypeError (msg : string)
| ValueError (msg : string)
| ZeroDivisionError
| IndexError
| NanError
| ReferenceError
| OverflowError.

Inductive res (A : Type) :=
| Ok (a : A)
| Raise (e : exn).
Arguments Ok {A} a.
Arguments Raise {A} e.

(** Python's [x / y] on floats: [ZeroDivisionError] on a zero divisor
    (NumPy scalars would give [inf] or [nan] there, which [Q] has not). *)
Definition py_div (x y : Q) : res Q :=
  if Qeq_bool y 0 then Raise ZeroDivisionError else Ok (x / y).

(** [np.mean] of a flattened array: [nan] on an empty one. *)
Definition np_mean (l : list Q) : res Q :=
  match l with
  | [] => Raise NanError
  | _ => Ok (Qsum l / inject_Z (Z.of_nat (length l)))
  end.

(** [l[:n]] for a Python int [n]. *)
Definition py_slice_to {A} (l : list A) (n : Z) : list A :=
  if (n <? 0)%Z then take (length l - Z.to_nat (- n)) l
  else take (Z.to_nat n) l.

(** ** The store *)

(** References to objects, and the contents of a two-dimensional array. *)
Abbreviation loc := positive (only parsing).
Abbreviation ndarray := (list (list Q)) (only parsing).

(** Modelled from the spec: the Agent class ([opytimizer/core/agent.py]
    is not part of the sources): "owns a position matrix and a scalar
    fitness", with its shape and the bounds its clipping uses.  The
    position is a reference to a NumPy array. *)
Record Agent := mkAgent {
  n_variables : nat;
  n_dimensions : nat;
  position : loc;
  fit : Q;
  lb : list Q;
  ub : list Q
}.

(** What a run can be observed to call, in order. *)
Inductive event :=
| EvEvaluate
| EvHistory (store_best_only : bool)
| EvUpdate
| EvClip
| EvDump.

Record World := mkWorld {
  arrays : gmap loc ndarray;
  objects : gmap loc Agent;
  tape : nat -> Q;
  cursor : nat;
  trace : list event
}.

Definition M (A : Type) : Type := World -> res (A * World).

Definition ret {A} (a : A) : M A := fun w => Ok (a, w).

Definition bind {A B} (c : M A) (k : A -> M B) : M B :=
  fun w => match c w with
           | Ok (a, w') => k a w'
           | Raise e => Raise e
           end.

Definition raise {A} (e : exn) : M A := fun _ => Raise e.

Definition lift {A} (r : res A) : M A :=
  fun w => match r with Ok a => Ok (a, w) | Raise e => Raise e end.

Notation "x <- c ;; k" := (bind c (fun x => k))
  (at level 100, c at next level, right associativity).
Notation "c ;;; k" := (bind c (fun _ => k))
  (at level 100, right associativity).

(** [for x in l: body(x)]. *)
Fixpoint for_each {A} (l : list A) (body : A -> M unit) : M unit :=
  match l with
  | [] => ret tt
  | x :: l' => body x ;;; for_each l' body
  end.

Definition get_agent (l : loc) : M Agent :=
  fun w => match objects w !! l with
           | Some a => Ok (a, w)
           | None => Raise ReferenceError
           end.

Definition set_agent (l : loc) (a : Agent) : M unit :=
  fun w => Ok (tt, mkWorld (arrays w) (<[l := a]> (objects w))
                           (tape w) (cursor w) (trace w)).

Definition get_array (l : loc) : M ndarray :=
  fun w => match arrays w !! l with
           | Some a => Ok (a, w)
           | None => Raise ReferenceError
           end.

Definition set_array (l : loc) (a : ndarray) : M unit :=
  fun w => Ok (tt, mkWorld (<[l := a]> (arrays w)) (objects w)
                           (tape w) (cursor w) (trace w)).

(** Allocation of a new array object. *)
Definition new_array (a : ndarray) : M loc :=
  fun w => let l := fresh (dom (arrays w)) in
           Ok (l, mkWorld (<[l := a]> (arrays w)) (objects w)
                          (tape w) (cursor w) (trace w)).

(** Allocation of a new agent object. *)
Definition new_agent (a : Agent) : M loc :=
  fun w => let l := fresh (dom (objects w)) in
           Ok (l, mkWorld (arrays w) (<[l := a]> (objects w))
                          (tape w) (cursor w) (trace w)).

Definition log (e : event) : M unit :=
  fun w => Ok (tt, mkWorld (arrays w) (objects w) (tape w) (cursor w)
                           (trace w ++ [e])).

(** [copy.deepcopy] of an array. *)
Definition deepcopy_array (l : loc) : M loc :=
  a <- get_array l ;; new_array a.

(** [copy.deepcopy] of an agent: a new object with a new position array. *)
Definition deepcopy_agent (l : loc) : M loc :=
  a <- get_agent l ;;
  p <- deepcopy_array (position a) ;;
  new_agent (mkAgent (n_variables a) (n_dimensions a) p (fit a) (lb a) (ub a)).

(** [agent.position], read. *)
Definition read_position (l : loc) : M ndarray :=
  a <- get_agent l ;; get_array (position a).

(** [agent.fit = f]. *)
Definition set_fit (l : loc) (f : Q) : M unit :=
  a <- get_agent l ;;
  set_agent l (mkAgent (n_variables a) (n_dimensions a) (position a) f (lb a) (ub a)).

(** [agent.position = p], [p] a reference. *)
Definition set_position (l : loc) (p : loc) : M unit :=
  a <- get_agent l ;;
  set_agent l (mkAgent (n_variables a) (n_dimensions a) p (fit a) (lb a) (ub a)).

(** ** The random source *)

(** Modelled from the spec: the random module ([opytimizer/math/random.py]
    is not part of the sources): "uniform(low, high) and Gaussian(mean,
    std, size) scalar/array generators".  One outcome is read from the
    tape per number drawn. *)
Definition draw : M Q :=
  fun w => Ok (tape w (cursor w),
               mkWorld (arrays w) (objects w) (tape w) (S (cursor w)) (trace w)).

Fixpoint draws (n : nat) : M (list Q) :=
  match n with
  | O => ret []
  | S n' => z <- draw ;; zs <- draws n' ;; ret (z :: zs)
  end.

(** [r.generate_gaussian_random_number(mean, std, size)], [size] an int. *)
Definition generate_gaussian_random_number (mean std : Q) (size : nat) : M (list Q) :=
  zs <- draws size ;; ret (map (fun z => mean + std * z) zs).

(** [r.generate_gaussian_random_number(mean, std, size=(rows, cols))]. *)
Fixpoint generate_gaussian_random_matrix (mean std : Q) (rows cols : nat) : M ndarray :=
  match rows with
  | O => ret []
  | S rows' =>
      r <- generate_gaussian_random_number mean std cols ;;
      rs <- generate_gaussian_random_matrix mean std rows' cols ;;
      ret (r :: rs)
  end.

(** [r.generate_uniform_random_number(low, high)]. *)
Definition generate_uniform_random_number (low high : Q) : M Q :=
  u <- draw ;; ret (low + (high - low) * u).

(** ** Agent operations *)

Definition Qclip (x lo hi : Q) : Q :=
  let y := if Qltb x lo then lo else x in
  if Qltb hi y then hi else y.

(** The rows of [a] clipped to the bounds of their variables, for the
    variables [zip(lb, ub)] enumerates. *)
Fixpoint clip_rows (a : ndarray) (lbs ubs : list Q) : ndarray :=
  match a, lbs, ubs with
  | row :: a', l :: lbs', u :: ubs' =>
      map (fun x => Qclip x l u) row :: clip_rows a' lbs' ubs'
  | _, _, _ => a
  end.

(** Modelled from the spec: [Agent.clip_by_bound] (in the absent
    [opytimizer/core/agent.py]): "clamps every position element into its
    variable's [lower_bound, upper_bound]", in place. *)
Definition Agent_clip_by_bound (l : loc) : M unit :=
  a <- get_agent l ;;
  p <- get_array (position a) ;;
  set_array (position a) (clip_rows p (lb a) (ub a)).

Definition same_shape (a b : ndarray) : bool :=
  bool_decide (map length a = map length b).

(** Elementwise sum of two arrays of one shape. *)
Definition array_add (a b : ndarray) : ndarray :=
  zip_with (zip_with Qplus) a b.

(** [agent.position += noise]: NumPy adds in place, into the array the
    agent refers to.  Operands of two shapes are outside the model (NumPy
    broadcasts some and raises on the others): they end in [ValueError]. *)
Definition iadd_position (l : loc) (noise : ndarray) : M unit :=
  a <- get_agent l ;;
  p <- get_array (position a) ;;
  if same_shape p noise then set_array (position a) (array_add p noise)
  else raise (ValueError "operands could not be broadcast together").

(** ** Loops, indexing, sorting *)

(** [for x in l] with the variables the body assigns threaded through. *)
Fixpoint for_state {A S} (l : list A) (body : A -> S -> M S) (s : S) : M S :=
  match l with
  | [] => ret s
  | x :: l' => s' <- body x s ;; for_state l' body s'
  end.

(** [enumerate(l)]. *)
Definition enumerate {A} (l : list A) : list (nat * A) :=
  zip (seq 0 (length l)) l.

(** [a[j]], read: [IndexError] out of range. *)
Definition index {A} (a : list A) (j : nat) : res A :=
  match a !! j with
  | Some x => Ok x
  | None => Raise IndexError
  end.

(** [a[j] = x] on a one-dimensional array. *)
Definition assign {A} (a : list A) (j : nat) (x : A) : res (list A) :=
  if bool_decide (j < length a)%nat then Ok (<[j := x]> a)
  else Raise IndexError.

(** [agent.position[j] = v]: the row is overwritten in place.  A value of
    another width is outside the model (NumPy broadcasts a single number
    and raises on the others): it ends in [ValueError]. *)
Definition set_row (l : loc) (j : nat) (v : list Q) : M unit :=
  a <- get_agent l ;;
  p <- get_array (position a) ;;
  row <- lift (index p j) ;;
  if bool_decide (length row = length v) then set_array (position a) (<[j := v]> p)
  else raise (ValueError "could not broadcast input array").

(** Insertion into a list sorted by key, after the equal keys: what makes
    the sort stable. *)
Fixpoint insert_by_key {A} (x : Q * A) (l : list (Q * A)) : list (Q * A) :=
  match l with
  | [] => [x]
  | y :: l' => if Qltb (fst x) (fst y) then x :: y :: l'
               else y :: insert_by_key x l'
  end.

(** A stable sort, ascending by key: the result of [list.sort(key=...)]. *)
Definition sort_by_key {A} (l : list (Q * A)) : list (Q * A) :=
  fold_left (fun acc x => insert_by_key x acc) l [].

(** The keys [lambda x: x.fit] computes, each with its agent. *)
Fixpoint keyed (agents : list loc) : M (list (Q * loc)) :=
  match agents with
  | [] => ret []
  | l :: agents' =>
      a <- get_agent l ;;
      ks <- keyed agents' ;;
      ret ((fit a, l) :: ks)
  end.

(** [agents.sort(key=lambda x: x.fit)]; the list is sorted in place, so
    its new contents are returned to the caller. *)
Definition sort_agents (agents : list loc) : M (list loc) :=
  ks <- keyed agents ;; ret (map snd (sort_by_key ks)).

(** [[agent.position for agent in agents]]. *)
Fixpoint positions (agents : list loc) : M (list ndarray) :=
  match agents with
  | [] => ret []
  | l :: agents' =>
      p <- read_position l ;;
      ps <- positions agents' ;;
      ret (p :: ps)
  end.

(** The rows [j] of some arrays, one after the other. *)
Fixpoint flat_rows (ps : list ndarray) (j : nat) : res (list Q) :=
  match ps with
  | [] => Ok []
  | p :: ps' =>
      match index p j, flat_rows ps' j with
      | Ok row, Ok rest => Ok (row ++ rest)
      | Raise e, _ => Raise e
      | _, Raise e => Raise e
      end
  end.

(** [update_position[:, j, :]], flattened as [np.mean] sees it.  The array
    of no positions has one axis, and indexing it with three raises. *)
Definition variable_slice (update_position : list ndarray) (j : nat) : res (list Q) :=
  match update_position with
  | [] => Raise IndexError
  | _ => flat_rows update_position j
  end.

(** ** The collaborators of [run] *)

Module Space.

(** Modelled from the spec: the Space class ([opytimizer/core/space.py] is
    not part of the sources): "owns the agent population, global search
    bounds, iteration budget, and the currently-best agent", the best
    agent "by value, not reference". *)
Record t := mk {
  agents : list loc;
  n_iterations : nat;
  n_variables : nat;
  lb : list Q;
  ub : list Q;
  best_agent : ndarray * Q
}.

(** Modelled from the spec: [Space.clip_by_bound]: "for every agent,
    clamps every position element into its variable's [lower_bound,
    upper_bound]". *)
Definition clip_by_bound (space : t) : M unit :=
  for_each (agents space) Agent_clip_by_bound.

End Space.

Module History.

(** One record of the log: the best agent alone, or the whole population
    with it. *)
Inductive record :=
| Best (best : ndarray * Q)
| Population (agents : list (ndarray * Q)) (best : ndarray * Q).

(** Modelled from the spec: the History class
    ([opytimizer/utils/history.py] is not part of the sources): "an
    append-only, ordered log of per-iteration snapshots (all agents or
    only the best)". *)
Record t := mk { store_best_only : bool; records : list record }.

(** [h.History(store_best_only)]. *)
Definition new (store_best_only : bool) : t := mk store_best_only [].

(** The position and the fitness of each agent, by value. *)
Fixpoint snapshot (agents : list loc) : M (list (ndarray * Q)) :=
  match agents with
  | [] => ret []
  | l :: agents' =>
      a <- get_agent l ;;
      p <- get_array (position a) ;;
      ss <- snapshot agents' ;;
      ret ((p, fit a) :: ss)
  end.

(** Modelled from the spec: [History.dump]: "appends one record per call,
    preserving call order; the record format depends on store_best_only". *)
Definition dump (self : t) (agents : list loc) (best_agent : ndarray * Q) : M t :=
  if store_best_only self then
    ret (mk (store_best_only self) (records self ++ [Best best_agent]))
  else
    ss <- snapshot agents ;;
    ret (mk (store_best_only self) (records self ++ [Population ss best_agent])).

End History.

Module Optimizer.

(** The first agent of lowest fitness, by value. *)
Fixpoint lowest (agents : list (ndarray * Q)) : option (ndarray * Q) :=
  match agents with
  | [] => None
  | a :: agents' =>
      match lowest agents' with
      | Some b => if Qltb (snd b) (snd a) then Some b else Some a
      | None => Some a
      end
  end.

(** Modelled from the spec: [Optimizer._evaluate]
    ([opytimizer/core/optimizer.py] is not part of the sources): the hook
    is "run immediately before each evaluation"; then "for every agent,
    computes fitness = function(position); afterward recomputes best_agent
    as a value-copy of the lowest-fitness agent".  The space after the
    call is returned. *)
Definition _evaluate (space : Space.t) (function : ndarray -> Q)
    (hook : option (Space.t -> M unit)) : M Space.t :=
  match hook with Some h => h space | None => ret tt end ;;;
  for_each (Space.agents space)
    (fun l => p <- read_position l ;; set_fit l (function p)) ;;;
  ss <- History.snapshot (Space.agents space) ;;
  ret (Space.mk (Space.agents space) (Space.n_iterations space)
         (Space.n_variables space) (Space.lb space) (Space.ub space)
         (match lowest ss with
          | Some b => b
          | None => Space.best_agent space
          end)).

(** A call made by [run], recorded in the trace. *)
Definition call {A} (e : event) (c : M A) : M A :=
  log e ;;; c.

End Optimizer.

(** ** Simulated Annealing ([opytimizer/optimizers/science/sa.py]) *)

Module SA.

(** The optimizer object: its two validated attributes. *)
Record t := mk { T : Q; beta : Q }.

(** The checks of the [T] setter. *)
Definition validate_T (v : PyVal) : res Q :=
  match as_float_or_int v with
  | None => Raise (TypeError "`T` should be a float or integer")
  | Some q =>
      if Qltb q 0 then Raise (ValueError "`T` should be >= 0") else Ok q
  end.

(** [self.T = v]. *)
Definition set_T (v : PyVal) (self : t) : res t :=
  match validate_T v with
  | Ok q => Ok (mk q (beta self))
  | Raise e => Raise e
  end.

(** The checks of the [beta] setter. *)
Definition validate_beta (v : PyVal) : res Q :=
  match as_float_or_int v with
  | None => Raise (TypeError "`beta` should be a float or integer")
  | Some q =>
      if Qltb q 0 then Raise (ValueError "`beta` should be >= 0") else Ok q
  end.

(** [self.beta = v]. *)
Definition set_beta (v : PyVal) (self : t) : res t :=
  match validate_beta v with
  | Ok q => Ok (mk (T self) q)
  | Raise e => Raise e
  end.

Section WithExp.

(** [np.exp]. *)
Variable np_exp : Q -> Q.

(** [self.T * self.beta] as Python computes it: [Ok] of the number the
    product is, rounded to a double when an operand is a float, and so 0
    when it underflows; no value when Python has none in [Q]
    ([OverflowError] for an int operand beyond the doubles, [inf]).  It
    is a function of the two values once the type of [beta] is fixed, as
    it is through a run. *)
Variable py_mul : Q -> Q -> res Q.

(** [agent.position = copy.deepcopy(a.position); agent.fit =
    copy.deepcopy(a.fit)]: both accepting branches. *)
Definition accept (agent : loc) (a : Agent) : M unit :=
  p <- deepcopy_array (position a) ;;
  set_position agent p ;;;
  set_fit agent (fit a).

(** The body of the loop of [_update], for one agent. *)
Definition step (self : t) (function : ndarray -> Q) (agent : loc) : M unit :=
  a <- deepcopy_agent agent ;;
  ag <- get_agent agent ;;
  noise <- generate_gaussian_random_matrix 0 0.1 (n_variables ag) (n_dimensions ag) ;;
  iadd_position a noise ;;;
  Agent_clip_by_bound a ;;;
  pa <- read_position a ;;
  set_fit a (function pa) ;;;
  r1 <- generate_uniform_random_number 0 1 ;;
  cand <- get_agent a ;;
  cur <- get_agent agent ;;
  if Qltb (fit cand) (fit cur) then accept agent cand
  else
    q <- lift (py_div (- (fit cand - fit cur)) (T self)) ;;
    if Qltb r1 (np_exp q) then accept agent cand
    else ret tt.

(** [SA._update]: the agents in turn, then the temperature decays.
    [self.T *= self.beta] takes the product and assigns it through the
    setter of [T], which checks a float and an int alike.  The optimizer
    object after the call is returned. *)
Definition _update (self : t) (agents : list loc) (function : ndarray -> Q) : M t :=
  for_each agents (step self function) ;;;
  p <- lift (py_mul (T self) (beta self)) ;;
  lift (set_T (PyFloat p) self).

(** The variables one iteration of [SA.run] assigns. *)
Record state := mk_state {
  self_ : t;
  space_ : Space.t;
  history_ : History.t
}.

(** The body of the loop of [SA.run]. *)
Definition iteration (function : ndarray -> Q)
    (pre_evaluate : option (Space.t -> M unit)) (t : nat) (s : state) : M state :=
  self <- Optimizer.call EvUpdate
            (_update (self_ s) (Space.agents (space_ s)) function) ;;
  Optimizer.call EvClip (Space.clip_by_bound (space_ s)) ;;;
  space <- Optimizer.call EvEvaluate
             (Optimizer._evaluate (space_ s) function pre_evaluate) ;;
  history <- Optimizer.call EvDump
               (History.dump (history_ s) (Space.agents space) (Space.best_agent space)) ;;
  ret (mk_state self space history).

(** [SA.run].  It returns the History; the optimizer and the space it
    mutated come with it.  The progress bar and the log file are not part
    of the model. *)
Definition run (self : SA.t) (space : Space.t)
    (function : ndarray -> Q) (store_best_only : bool)
    (pre_evaluate : option (Space.t -> M unit)) : M state :=
  space <- Optimizer.call EvEvaluate
             (Optimizer._evaluate space function pre_evaluate) ;;
  history <- Optimizer.call (EvHistory store_best_only)
               (ret (History.new store_best_only)) ;;
  for_state (seq 0 (Space.n_iterations space))
    (iteration function pre_evaluate)
    (mk_state self space history).

End WithExp.
End SA.


(** ** Cross-Entropy Method ([opytimizer/optimizers/misc/cem.py]) *)

Module CEM.

Record t := mk { n_updates : Z; alpha : Q }.

(** The checks of the [n_updates] setter. *)
Definition validate_n_updates (v : PyVal) : res Z :=
  match as_int v with
  | None => Raise (TypeError "`n_updates` should be an integer")
  | Some z =>
      if (z <=? 0)%Z then Raise (ValueError "`n_updates` should be > 0") else Ok z
  end.

(** [self.n_updates = v]. *)
Definition set_n_updates (v : PyVal) (self : t) : res t :=
  match validate_n_updates v with
  | Ok z => Ok (mk z (alpha self))
  | Raise e => Raise e
  end.

(** The checks of the [alpha] setter. *)
Definition validate_alpha (v : PyVal) : res Q :=
  match as_float_or_int v with
  | None => Raise (TypeError "`alpha` should be a float or integer")
  | Some q =>
      if Qltb q 0 then Raise (ValueError "`alpha` should be >= 0") else Ok q
  end.

(** [self.alpha = v]. *)
Definition set_alpha (v : PyVal) (self : t) : res t :=
  match validate_alpha v with
  | Ok q => Ok (mk (n_updates self) q)
  | Raise e => Raise e
  end.

Section WithSqrt.

(** [np.sqrt]. *)
Variable np_sqrt : Q -> Q.

(** The body of the loop of [_create_new_samples], for one agent. *)
Definition resample (function : ndarray -> Q) (mean std : list Q) (agent : loc) : M unit :=
  for_each (enumerate (zip mean std))
    (fun '(j, (m, s)) =>
       ag <- get_agent agent ;;
       v <- generate_gaussian_random_number m s (n_dimensions ag) ;;
       set_row agent j v) ;;;
  Agent_clip_by_bound agent ;;;
  p <- read_position agent ;;
  set_fit agent (function p).

(** [CEM._create_new_samples]. *)
Definition _create_new_samples (agents : list loc) (function : ndarray -> Q)
    (mean std : list Q) : M unit :=
  for_each agents (resample function mean std).

(** [CEM._update_mean]. *)
Definition _update_mean (self : t) (updates : list Q) (mean : Q) : res Q :=
  match np_mean updates with
  | Ok m => Ok (alpha self * mean + (1 - alpha self) * m)
  | Raise e => Raise e
  end.

(** [CEM._update_std]. *)
Definition _update_std (self : t) (updates : list Q) (mean std : Q) : res Q :=
  match np_mean (map (fun u => (u - mean) ^ 2) updates) with
  | Ok v => Ok (alpha self * std + (1 - alpha self) * np_sqrt v)
  | Raise e => Raise e
  end.

(** The body of the last loop of [_update], for the variable [j]:
    [mean[j]] is assigned first and read back for [std[j]]. *)
Definition refit (self : t) (update_position : list ndarray) (j : nat)
    (ms : list Q * list Q) : res (list Q * list Q) :=
  let '(mean, std) := ms in
  match variable_slice update_position j, index mean j with
  | Ok ups, Ok mean_j =>
      match _update_mean self ups mean_j with
      | Ok new_mean =>
          match assign mean j new_mean with
          | Ok mean' =>
              match index mean' j, index std j with
              | Ok mean'_j, Ok std_j =>
                  match _update_std self ups mean'_j std_j with
                  | Ok new_std =>
                      match assign std j new_std with
                      | Ok std' => Ok (mean', std')
                      | Raise e => Raise e
                      end
                  | Raise e => Raise e
                  end
              | Raise e, _ => Raise e
              | _, Raise e => Raise e
              end
          | Raise e => Raise e
          end
      | Raise e => Raise e
      end
  | Raise e, _ => Raise e
  | _, Raise e => Raise e
  end.

(** [CEM._update].  [agents], [mean] and [std] are mutated in place: their
    contents after the call are returned. *)
Definition _update (self : t) (agents : list loc) (function : ndarray -> Q)
    (mean std : list Q) : M (list loc * list Q * list Q) :=
  _create_new_samples agents function mean std ;;;
  agents' <- sort_agents agents ;;
  update_position <- positions (py_slice_to agents' (n_updates self)) ;;
  ms <- for_state (seq 0 (length mean))
          (fun j ms => lift (refit self update_position j ms)) (mean, std) ;;
  ret (agents', fst ms, snd ms).

(** The variables one iteration of [CEM.run] assigns. *)
Record state := mk_state {
  space_ : Space.t;
  mean_ : list Q;
  std_ : list Q;
  history_ : History.t
}.

(** The first loop of [CEM.run], for the variable [j]. *)
Definition initial (j : nat) (lbub : Q * Q) (ms : list Q * list Q) : M (list Q * list Q) :=
  u <- generate_uniform_random_number (fst lbub) (snd lbub) ;;
  mean <- lift (assign (fst ms) j u) ;;
  std <- lift (assign (snd ms) j (snd lbub - fst lbub)) ;;
  ret (mean, std).

(** The body of the main loop of [CEM.run]. *)
Definition iteration (self : CEM.t) (function : ndarray -> Q)
    (pre_evaluate : option (Space.t -> M unit)) (t : nat) (s : state) : M state :=
  r <- Optimizer.call EvUpdate
         (_update self (Space.agents (space_ s)) function
            (mean_ s) (std_ s)) ;;
  let '(agents, mean, std) := r in
  let space := Space.mk agents (Space.n_iterations (space_ s))
                 (Space.n_variables (space_ s)) (Space.lb (space_ s))
                 (Space.ub (space_ s)) (Space.best_agent (space_ s)) in
  Optimizer.call EvClip (Space.clip_by_bound space) ;;;
  space <- Optimizer.call EvEvaluate
             (Optimizer._evaluate space function pre_evaluate) ;;
  history <- Optimizer.call EvDump
               (History.dump (history_ s) (Space.agents space) (Space.best_agent space)) ;;
  ret (mk_state space mean std history).

(** [CEM.run]. *)
Definition run (self : CEM.t) (space : Space.t)
    (function : ndarray -> Q) (store_best_only : bool)
    (pre_evaluate : option (Space.t -> M unit)) : M state :=
  ms <- for_state (enumerate (zip (Space.lb space) (Space.ub space)))
          (fun '(j, lbub) => initial j lbub)
          (replicate (Space.n_variables space) 0, replicate (Space.n_variables space) 0) ;;
  space <- Optimizer.call EvEvaluate
             (Optimizer._evaluate space function pre_evaluate) ;;
  history <- Optimizer.call (EvHistory store_best_only)
               (ret (History.new store_best_only)) ;;
  for_state (seq 0 (Space.n_iterations space))
    (iteration self function pre_evaluate)
    (mk_state space (fst ms) (snd ms) history).

End WithSqrt.
End CEM.


(** * Specification-level definitions *)

(** ** What the random source yields *)

(** The world after [n] outcomes were read. *)
Definition advance (n : nat) (w : World) : World :=
  mkWorld (arrays w) (objects w) (tape w) (cursor w + n) (trace w).

(** The [n] outcomes the tape holds from the cursor [c] on. *)
Definition outcomes (tp : nat -> Q) (c n : nat) : list Q :=
  map (fun i => tp (c + i)%nat) (seq 0 n).

(** The value of [generate_gaussian_random_number mean std n] with the
    cursor at [c]. *)
Definition gaussian_vector (tp : nat -> Q) (c : nat) (mean std : Q) (n : nat) : list Q :=
  map (fun z => mean + std * z) (outcomes tp c n).

(** The value of [generate_gaussian_random_matrix mean std rows cols] with
    the cursor at [c]: row after row. *)
Fixpoint gaussian_matrix (tp : nat -> Q) (c : nat) (mean std : Q) (rows cols : nat) : ndarray :=
  match rows with
  | O => []
  | S rows' => gaussian_vector tp c mean std cols
               :: gaussian_matrix tp (c + cols) mean std rows' cols
  end.

(** ** One step of Simulated Annealing, in closed form *)

(** The candidate for an agent [ag] at the position [p]: the position plus
    noise of mean 0 and standard deviation 0.1, clipped. *)
Definition candidate_position (w : World) (ag : Agent) (p : ndarray) : ndarray :=
  clip_rows (array_add p (gaussian_matrix (tape w) (cursor w) 0 0.1
                                (n_variables ag) (n_dimensions ag)))
            (lb ag) (ub ag).

(** The uniform draw of the step: the outcome that follows the noise. *)
Definition uniform_outcome (w : World) (ag : Agent) : Q :=
  0 + (1 - 0) * tape w (cursor w + n_variables ag * n_dimensions ag)%nat.

(** The world after a step that rejected its candidate: the candidate
    agent and its array are new objects, nothing else has changed. *)
Definition tried (function : ndarray -> Q) (w : World) (ag : Agent) (p : ndarray) : World :=
  let cand := candidate_position w ag p in
  mkWorld (<[fresh (dom (arrays w)) := cand]> (arrays w))
          (<[fresh (dom (objects w)) :=
               mkAgent (n_variables ag) (n_dimensions ag) (fresh (dom (arrays w)))
                       (function cand) (lb ag) (ub ag)]> (objects w))
          (tape w) (cursor w + n_variables ag * n_dimensions ag + 1) (trace w).

(** The world after a step that accepted its candidate: the agent at [l]
    refers to one more new array, a copy of the candidate's. *)
Definition accepted (function : ndarray -> Q) (w : World) (l : loc) (ag : Agent)
    (p : ndarray) : World :=
  let cand := candidate_position w ag p in
  let w1 := tried function w ag p in
  mkWorld (<[fresh (dom (arrays w1)) := cand]> (arrays w1))
          (<[l := mkAgent (n_variables ag) (n_dimensions ag) (fresh (dom (arrays w1)))
                          (function cand) (lb ag) (ub ag)]> (objects w1))
          (tape w) (cursor w1) (trace w).

(** ** Populations *)

(** The agent at [l] has the position [pos] and the fitness [f]. *)
Definition agent_at (w : World) (l : loc) (pos : ndarray) (f : Q) : Prop :=
  exists ag, objects w !! l = Some ag /\ arrays w !! position ag = Some pos /\ fit ag = f.

(** The agent at [l] is a live object whose position is a live array of
    [nv] rows of [nd] numbers, as its shape fields say. *)
Definition shaped (nv nd : nat) (w : World) (l : loc) : Prop :=
  exists ag p, objects w !! l = Some ag /\ arrays w !! position ag = Some p /\
    n_variables ag = nv /\ n_dimensions ag = nd /\
    map length p = replicate nv nd.

(** Every live, well-shaped agent of [w] is one of [w'], of that shape. *)
Definition extends (w w' : World) : Prop :=
  forall l nv nd, shaped nv nd w l -> shaped nv nd w' l.

(** ** Python values, as the claims speak of them *)

(** The values Python counts as numbers here: [int], its subclass [bool],
    and [float]. *)
Definition numeric (v : PyVal) : Prop :=
  match v with
  | PyInt _ | PyFloat _ | PyBool _ => True
  | PyStr _ | PyNone => False
  end.

(** The instances of [int]. *)
Definition integer (v : PyVal) : Prop :=
  match v with
  | PyInt _ | PyBool _ => True
  | PyFloat _ | PyStr _ | PyNone => False
  end.

(** A number below zero. *)
Definition negative (v : PyVal) : Prop :=
  match v with
  | PyInt z => (z < 0)%Z
  | PyFloat q => q < 0
  | PyBool _ | PyStr _ | PyNone => False
  end.

(** ** Runs *)

(** A computation that, when it returns, has recorded no call. *)
Definition quiet {A} (c : M A) : Prop :=
  forall w a w', c w = Ok (a, w') -> trace w' = trace w.

(** A hook is not one of the calls the trace records. *)
Definition hook_quiet (hook : option (Space.t -> M unit)) : Prop :=
  match hook with
  | None => True
  | Some h => forall space, quiet (h space)
  end.

(** Every agent of the population is a live object of some shape. *)
Definition population (w : World) (agents : list loc) : Prop :=
  Forall (fun l => exists nv nd, shaped nv nd w l) agents.

(** A hook returns and keeps the agents and their shapes. *)
Definition hook_safe (hook : option (Space.t -> M unit)) : Prop :=
  match hook with
  | None => True
  | Some h => forall space w, population w (Space.agents space) ->
                exists w', h space w = Ok (tt, w') /\ extends w w'
  end.

(** The calls of one iteration of [run], and of a whole run. *)
Definition iteration_events : list event := [EvUpdate; EvClip; EvEvaluate; EvDump].

Definition run_events (store_best_only : bool) (n : nat) : list event :=
  [EvEvaluate; EvHistory store_best_only] ++ concat (replicate n iteration_events).


(** ** The temperature of Simulated Annealing over a run *)

(** The temperature after [k] update passes that started at [T]: [k]
    products by [beta], each as Python computes it. *)
Fixpoint cooled (py_mul : Q -> Q -> res Q) (T beta : Q) (k : nat) : res Q :=
  match k with
  | O => Ok T
  | S k' =>
      match py_mul T beta with
      | Ok t => cooled py_mul t beta k'
      | Raise e => Raise e
      end
  end.

(** The temperature lasts [n] update passes: every pass starts above
    zero, and the last product is a number the setter accepts. *)
Definition warm (py_mul : Q -> Q -> res Q) (T beta : Q) (n : nat) : Prop :=
  (forall k, (k < n)%nat -> exists t, cooled py_mul T beta k = Ok t /\ 0 < t) /\
  (exists t, cooled py_mul T beta n = Ok t /\ 0 <= t).


(** ** The Cross-Entropy Method, as the specification words it *)

(** The arithmetic average of a list of numbers. *)
Definition average (l : list Q) : Q :=
  Qsum l / inject_Z (Z.of_nat (length l)).

(** The update of the mean as the specification words it: "mean <-
    alpha * mean + (1 - alpha) * average(elite positions for that
    variable)". *)
Definition spec_mean (alpha mean : Q) (elite : list Q) : Q :=
  alpha * mean + (1 - alpha) * average elite.

(** The update of the standard deviation as the specification words it:
    "std <- alpha * std + (1 - alpha) * sqrt(average((elite positions -
    new mean)^2))". *)
Definition spec_std (np_sqrt : Q -> Q) (alpha std new_mean : Q) (elite : list Q) : Q :=
  alpha * std
  + (1 - alpha) * np_sqrt (average (map (fun x => (x - new_mean) ^ 2) elite)).

(** The fitness of the agent at [l]. *)
Definition fitness (w : World) (l : loc) : Q :=
  match objects w !! l with
  | Some a => fit a
  | None => 0
  end.

(** The values of the decision variable [j] in the position of the agent
    at [l]. *)
Definition variable_of (w : World) (j : nat) (l : loc) : list Q :=
  match objects w !! l with
  | Some a =>
      match arrays w !! position a with
      | Some p => default [] (p !! j)
      | None => []
      end
  | None => []
  end.

(** The values of the decision variable [j] over some agents. *)
Definition variable_over (w : World) (j : nat) (agents : list loc) : list Q :=
  concat (map (variable_of w j) agents).

(** Ascending order of keyed items. *)
Definition key_le {A} (x y : Q * A) : Prop := fst x <= fst y.

(** Every agent of the population is a live object of the shape
    [(nv, nd)]. *)
Definition uniform (nv nd : nat) (w : World) (agents : list loc) : Prop :=
  Forall (shaped nv nd w) agents.

(** ** A small population, for examples *)

(** The sum of squares, as an objective. *)
Definition sphere (a : list (list Q)) : Q :=
  Qsum (map (fun x => x * x) (concat a)).

(** The product of two doubles where it is exact, as it is for 100, 50,
    25, ... times 0.5. *)
Definition exact_mul (a b : Q) : res Q := Ok (a * b).

(** An agent of two one-dimensional variables bounded by [-10, 10]. *)
Definition demo_agent (p : loc) (f : Q) : Agent :=
  mkAgent 2 1 p f [-10; -10] [10; 10].

(** Two such agents, at (4, 3) and (2, 1), with a tape to draw from. *)
Definition demo_world (tp : nat -> Q) : World :=
  mkWorld (<[1%positive := [[4]; [3]]]> (<[2%positive := [[2]; [1]]]> ∅))
          (<[1%positive := demo_agent 1 25]> (<[2%positive := demo_agent 2 5]> ∅))
          tp 0 [].

(** Outcomes 1, 2, 3, ...: every noise is positive. *)
Definition rising (n : nat) : Q := inject_Z (Z.of_nat n) + 1.

(** Outcomes -1, -2, -3, ...: every noise is negative. *)
Definition falling (n : nat) : Q := - (inject_Z (Z.of_nat n) + 1).

(** Outcomes 4, 3, 2, ...: the first agent resampled lands further out than
    the second. *)
Definition descending (n : nat) : Q := 4 - inject_Z (Z.of_nat n).

(** The space of the two agents, for a budget of three iterations. *)
Definition demo_space : Space.t :=
  Space.mk [1%positive; 2%positive] 3 2 [-10; -10] [10; 10] ([[0]; [0]], 100).

(** Outcomes 1/2, 1/2, 1/5, 1/5, 0, 0, ...: a run of the Cross-Entropy
    Method starts from the mean (0, 0) and resamples the first agent at
    (4, 4) and the second at (0, 0). *)
Definition swapping (n : nat) : Q :=
  match n with
  | 0%nat | 1%nat => 0.5
  | 2%nat | 3%nat => 0.2
  | _ => 0
  end.

(** ** Further properties of the population *)

(** The fitness of the agent at [l] is the objective at its position. *)
Definition current (function : list (list Q) -> Q) (w : World) (l : loc) : Prop :=
  exists ag p, objects w !! l = Some ag /\ arrays w !! position ag = Some p /\
               fit ag = function p.

(** The agents of fitness [k], in the order of the list. *)
Definition of_fitness (w : World) (k : Q) (agents : list loc) : list loc :=
  List.filter (fun l => Qeq_bool (fitness w l) k) agents.

(** The keyed items of key [k], in the order of the list. *)
Definition of_key {A} (k : Q) (l : list (Q * A)) : list (Q * A) :=
  List.filter (fun y => Qeq_bool (fst y) k) l.

(** The array the object at [l] refers to as its position, if there is an
    agent at [l]. *)
Definition position_of (w : World) (l : loc) : option loc :=
  position <$> objects w !! l.

(** No two agents of the list refer to one position array. *)
Definition unshared (w : World) (agents : list loc) : Prop :=
  NoDup (map (position_of w) agents).

(** The rows [_create_new_samples] draws for one agent, one per pair of a
    mean and a standard deviation, with the cursor at [c]. *)
Fixpoint gaussian_rows (tp : nat -> Q) (c : nat) (ms : list (Q * Q)) (nd : nat)
    : list (list Q) :=
  match ms with
  | [] => []
  | (m, s) :: ms' => gaussian_vector tp c m s nd :: gaussian_rows tp (c + nd) ms' nd
  end.


(** * Verification *)

(** ** Numbers and the random source *)

Lemma Qltb_lt x y : Qltb x y = true <-> x < y.
Proof.
  unfold Qltb. rewrite negb_true_iff, <- not_true_iff_false, Qle_bool_iff.
  split; intros H; [apply Qnot_le_lt | apply Qlt_not_le]; exact H.
Qed.

Lemma Qltb_ge x y : Qltb x y = false <-> y <= x.
Proof.
  unfold Qltb. rewrite negb_false_iff. apply Qle_bool_iff.
Qed.

Lemma advance_0 w : advance 0 w = w.
Proof. destruct w; unfold advance; cbn. f_equal. lia. Qed.

Lemma advance_advance n m w : advance n (advance m w) = advance (m + n) w.
Proof. unfold advance; cbn. f_equal. lia. Qed.

Lemma draws_run n w : draws n w = Ok (outcomes (tape w) (cursor w) n, advance n w).
Proof.
  revert w. induction n as [|n IH]; intros w.
  - cbn. unfold ret. now rewrite advance_0.
  - cbn [draws]. unfold bind at 1. unfold draw at 1.
    unfold bind at 1. rewrite IH. unfold ret. f_equal. f_equal.
    + unfold outcomes. cbn [seq map]. f_equal. { f_equal. cbn. lia. }
      rewrite <- seq_shift, map_map. apply map_ext. intros i. cbn. f_equal. lia.
    + unfold advance; cbn. f_equal. lia.
Qed.

Lemma gaussian_vector_run m s n w :
  generate_gaussian_random_number m s n w
  = Ok (gaussian_vector (tape w) (cursor w) m s n, advance n w).
Proof.
  unfold generate_gaussian_random_number, bind. now rewrite draws_run.
Qed.

Lemma gaussian_matrix_run m s rows cols w :
  generate_gaussian_random_matrix m s rows cols w
  = Ok (gaussian_matrix (tape w) (cursor w) m s rows cols, advance (rows * cols) w).
Proof.
  revert w. induction rows as [|rows IH]; intros w.
  - cbn. unfold ret. now rewrite advance_0.
  - cbn [generate_gaussian_random_matrix]. unfold bind at 1.
    rewrite gaussian_vector_run. unfold bind at 1. rewrite IH.
    unfold ret. cbn [gaussian_matrix]. now rewrite advance_advance.
Qed.

Lemma gaussian_vector_length tp c m s n : length (gaussian_vector tp c m s n) = n.
Proof. unfold gaussian_vector, outcomes. now rewrite !length_map, length_seq. Qed.

Lemma gaussian_matrix_shape tp c m s rows cols :
  map length (gaussian_matrix tp c m s rows cols) = replicate rows cols.
Proof.
  revert c. induction rows as [|rows IH]; intros c; cbn; [done|].
  now rewrite gaussian_vector_length, IH.
Qed.

Lemma uniform_run low high w :
  generate_uniform_random_number low high w
  = Ok (low + (high - low) * tape w (cursor w), advance 1 w).
Proof.
  unfold generate_uniform_random_number, bind, draw, ret, advance.
  do 3 f_equal. lia.
Qed.

(** ** Shapes *)

Lemma clip_rows_shape a lbs ubs : map length (clip_rows a lbs ubs) = map length a.
Proof.
  revert lbs ubs. induction a as [|row a IH]; intros [|l lbs] [|u ubs]; cbn; try done.
  now rewrite length_map, IH.
Qed.

Lemma array_add_shape a b :
  map length a = map length b -> map length (array_add a b) = map length a.
Proof.
  unfold array_add. revert b. induction a as [|r a IH]; intros [|r' b] H; cbn in *; try done.
  injection H as H1 H2. rewrite (IH _ H2). f_equal.
  rewrite length_zip_with. lia.
Qed.

(** ** The store *)

Lemma fresh_object_ne (w : World) l ag :
  objects w !! l = Some ag -> fresh (dom (objects w)) <> l.
Proof.
  intros H E. apply (is_fresh (dom (objects w))). rewrite E.
  apply elem_of_dom. eauto.
Qed.

Lemma fresh_array_ne (m : gmap loc ndarray) l p :
  m !! l = Some p -> fresh (dom m) <> l.
Proof.
  intros H E. apply (is_fresh (dom m)). rewrite E.
  apply elem_of_dom. eauto.
Qed.

Lemma bind_run {A B} (c : M A) (k : A -> M B) w :
  bind c k w = match c w with Ok (a, w') => k a w' | Raise e => Raise e end.
Proof. reflexivity. Qed.

Lemma get_agent_run w l a : objects w !! l = Some a -> get_agent l w = Ok (a, w).
Proof. intros H. unfold get_agent. now rewrite H. Qed.

Lemma get_array_run w l a : arrays w !! l = Some a -> get_array l w = Ok (a, w).
Proof. intros H. unfold get_array. now rewrite H. Qed.

Ltac world := cbn [arrays objects tape cursor trace advance].
Ltac run_with lem := rewrite bind_run, lem; cbv beta iota; world.

Lemma deepcopy_array_run w l a :
  arrays w !! l = Some a ->
  deepcopy_array l w
  = Ok (fresh (dom (arrays w)),
        mkWorld (<[fresh (dom (arrays w)) := a]> (arrays w)) (objects w)
                (tape w) (cursor w) (trace w)).
Proof.
  intros H. unfold deepcopy_array. rewrite bind_run, (get_array_run _ _ _ H).
  reflexivity.
Qed.

Lemma deepcopy_agent_run w l ag p :
  objects w !! l = Some ag ->
  arrays w !! position ag = Some p ->
  deepcopy_agent l w
  = Ok (fresh (dom (objects w)),
        mkWorld (<[fresh (dom (arrays w)) := p]> (arrays w))
                (<[fresh (dom (objects w)) :=
                     mkAgent (n_variables ag) (n_dimensions ag) (fresh (dom (arrays w)))
                             (fit ag) (lb ag) (ub ag)]> (objects w))
                (tape w) (cursor w) (trace w)).
Proof.
  intros Ho Ha. unfold deepcopy_agent.
  rewrite bind_run, (get_agent_run _ _ _ Ho). cbv beta iota.
  rewrite bind_run, (deepcopy_array_run _ _ _ Ha). reflexivity.
Qed.

Lemma read_position_run w l ag p :
  objects w !! l = Some ag ->
  arrays w !! position ag = Some p ->
  read_position l w = Ok (p, w).
Proof.
  intros Ho Ha. unfold read_position.
  rewrite bind_run, (get_agent_run _ _ _ Ho). cbv beta iota.
  now apply get_array_run.
Qed.

Lemma set_fit_run w l ag f :
  objects w !! l = Some ag ->
  set_fit l f w
  = Ok (tt, mkWorld (arrays w)
              (<[l := mkAgent (n_variables ag) (n_dimensions ag) (position ag) f
                              (lb ag) (ub ag)]> (objects w))
              (tape w) (cursor w) (trace w)).
Proof.
  intros Ho. unfold set_fit. now rewrite bind_run, (get_agent_run _ _ _ Ho).
Qed.

Lemma set_position_run w l ag p :
  objects w !! l = Some ag ->
  set_position l p w
  = Ok (tt, mkWorld (arrays w)
              (<[l := mkAgent (n_variables ag) (n_dimensions ag) p (fit ag)
                              (lb ag) (ub ag)]> (objects w))
              (tape w) (cursor w) (trace w)).
Proof.
  intros Ho. unfold set_position. now rewrite bind_run, (get_agent_run _ _ _ Ho).
Qed.

Lemma clip_by_bound_run w l ag p :
  objects w !! l = Some ag ->
  arrays w !! position ag = Some p ->
  Agent_clip_by_bound l w
  = Ok (tt, mkWorld (<[position ag := clip_rows p (lb ag) (ub ag)]> (arrays w))
              (objects w) (tape w) (cursor w) (trace w)).
Proof.
  intros Ho Ha. unfold Agent_clip_by_bound.
  rewrite bind_run, (get_agent_run _ _ _ Ho). cbv beta iota.
  now rewrite bind_run, (get_array_run _ _ _ Ha).
Qed.

Lemma iadd_position_run w l ag p noise :
  objects w !! l = Some ag ->
  arrays w !! position ag = Some p ->
  map length p = map length noise ->
  iadd_position l noise w
  = Ok (tt, mkWorld (<[position ag := array_add p noise]> (arrays w))
              (objects w) (tape w) (cursor w) (trace w)).
Proof.
  intros Ho Ha Hs. unfold iadd_position.
  rewrite bind_run, (get_agent_run _ _ _ Ho). cbv beta iota.
  rewrite bind_run, (get_array_run _ _ _ Ha). cbv beta iota.
  unfold same_shape. now rewrite bool_decide_eq_true_2.
Qed.

(** ** One step of Simulated Annealing *)

Lemma accept_run w l ag cand p :
  objects w !! l = Some ag ->
  arrays w !! position cand = Some p ->
  SA.accept l cand w
  = Ok (tt, mkWorld (<[fresh (dom (arrays w)) := p]> (arrays w))
              (<[l := mkAgent (n_variables ag) (n_dimensions ag) (fresh (dom (arrays w)))
                              (fit cand) (lb ag) (ub ag)]> (objects w))
              (tape w) (cursor w) (trace w)).
Proof.
  intros Ho Ha. unfold SA.accept.
  run_with (deepcopy_array_run _ _ _ Ha).
  rewrite bind_run. erewrite set_position_run by (world; eassumption).
  cbv beta iota. erewrite set_fit_run by (world; apply lookup_insert_eq).
  world. now rewrite insert_insert_eq.
Qed.

Lemma step_run np_exp self function w l ag p :
  objects w !! l = Some ag ->
  arrays w !! position ag = Some p ->
  map length p = replicate (n_variables ag) (n_dimensions ag) ->
  SA.step np_exp self function l w =
    let cf := function (candidate_position w ag p) in
    if Qltb cf (fit ag) then Ok (tt, accepted function w l ag p)
    else match py_div (- (cf - fit ag)) (SA.T self) with
         | Ok q => if Qltb (uniform_outcome w ag) (np_exp q)
                   then Ok (tt, accepted function w l ag p)
                   else Ok (tt, tried function w ag p)
         | Raise e => Raise e
         end.
Proof.
  intros Hobj Harr Hshape.
  assert (Hne : fresh (dom (objects w)) <> l) by (eapply fresh_object_ne; eauto).
  unfold SA.step.
  run_with (deepcopy_agent_run _ _ _ _ Hobj Harr).
  rewrite bind_run. erewrite get_agent_run
    by (world; rewrite lookup_insert_ne by exact Hne; exact Hobj).
  cbv beta iota.
  run_with gaussian_matrix_run.
  rewrite bind_run. erewrite iadd_position_run; cycle 1.
  { world. apply lookup_insert_eq. }
  { world. cbn [position]. apply lookup_insert_eq. }
  { rewrite gaussian_matrix_shape. exact Hshape. }
  cbv beta iota; world; cbn [position].
  rewrite bind_run. erewrite clip_by_bound_run; cycle 1.
  { world. apply lookup_insert_eq. }
  { world. cbn [position]. apply lookup_insert_eq. }
  cbv beta iota; world; cbn [position lb ub].
  rewrite bind_run. erewrite read_position_run; cycle 1.
  { world. apply lookup_insert_eq. }
  { world. cbn [position]. apply lookup_insert_eq. }
  cbv beta iota; world.
  rewrite bind_run. erewrite set_fit_run by (world; apply lookup_insert_eq).
  cbv beta iota; world; cbn [position lb ub n_variables n_dimensions].
  run_with uniform_run.
  rewrite !insert_insert_eq.
  rewrite bind_run. erewrite get_agent_run by (world; apply lookup_insert_eq).
  cbv beta iota.
  rewrite bind_run. erewrite get_agent_run
    by (world; rewrite lookup_insert_ne by exact Hne; exact Hobj).
  cbv beta iota. cbn [fit position].
fold (candidate_position w ag p).
  set (cf := function (candidate_position w ag p)).
  assert (Hacc : SA.accept l
    (mkAgent (n_variables ag) (n_dimensions ag) (fresh (dom (arrays w))) cf (lb ag) (ub ag))
    (mkWorld (<[fresh (dom (arrays w)) := candidate_position w ag p]> (arrays w))
       (<[fresh (dom (objects w)) :=
            mkAgent (n_variables ag) (n_dimensions ag) (fresh (dom (arrays w))) cf
                    (lb ag) (ub ag)]> (objects w))
       (tape w) (cursor w + n_variables ag * n_dimensions ag + 1) (trace w))
    = Ok (tt, accepted function w l ag p)).
  { erewrite accept_run; cycle 1.
    - world. rewrite lookup_insert_ne by exact Hne. exact Hobj.
    - world. cbn [position]. apply lookup_insert_eq.
    - reflexivity. }
  cbv zeta. destruct (Qltb cf (fit ag)); [exact Hacc|].
  rewrite bind_run. unfold lift.
  destruct (py_div (- (cf - fit ag)) (SA.T self)) as [q|e]; [|reflexivity].
  fold (uniform_outcome w ag).
  destruct (Qltb (uniform_outcome w ag) (np_exp q)); [exact Hacc|reflexivity].
Qed.

Lemma extends_refl w : extends w w.
Proof. intros l nv nd H. exact H. Qed.

Lemma extends_trans w1 w2 w3 : extends w1 w2 -> extends w2 w3 -> extends w1 w3.
Proof. intros H1 H2 l nv nd H. apply H2, H1, H. Qed.

Lemma candidate_shape w ag p :
  map length p = replicate (n_variables ag) (n_dimensions ag) ->
  map length (candidate_position w ag p) = map length p.
Proof.
  intros H. unfold candidate_position.
  rewrite clip_rows_shape, array_add_shape; [done|].
  now rewrite gaussian_matrix_shape.
Qed.

Lemma tried_object function w ag p l a :
  objects w !! l = Some a -> objects (tried function w ag p) !! l = Some a.
Proof.
  intros H. unfold tried; world.
  rewrite lookup_insert_ne; [done|]. eapply fresh_object_ne; eauto.
Qed.

Lemma tried_array function w ag p q x :
  arrays w !! q = Some x -> arrays (tried function w ag p) !! q = Some x.
Proof.
  intros H. unfold tried; world.
  rewrite lookup_insert_ne; [done|]. eapply fresh_array_ne; eauto.
Qed.

Lemma accepted_object function w l ag p l' a :
  l' <> l -> objects w !! l' = Some a ->
  objects (accepted function w l ag p) !! l' = Some a.
Proof.
  intros Hne H. unfold accepted; world.
  rewrite lookup_insert_ne by congruence. by apply tried_object.
Qed.

Lemma accepted_array function w l ag p q x :
  arrays w !! q = Some x -> arrays (accepted function w l ag p) !! q = Some x.
Proof.
  intros H. unfold accepted; world.
  rewrite lookup_insert_ne.
  - apply tried_array. exact H.
  - eapply fresh_array_ne. apply tried_array, H.
Qed.

Lemma accepted_agent_at function w l ag p :
  agent_at (accepted function w l ag p) l (candidate_position w ag p)
           (function (candidate_position w ag p)).
Proof.
  eexists. unfold accepted; world. split; [apply lookup_insert_eq|].
  cbn [position fit]. split; [apply lookup_insert_eq|reflexivity].
Qed.

Lemma tried_extends function w ag p : extends w (tried function w ag p).
Proof.
  intros l nv nd (a & x & Ho & Ha & Hs). exists a, x.
  split; [by apply tried_object|]. split; [by apply tried_array|exact Hs].
Qed.

Lemma accepted_extends function w l ag p :
  objects w !! l = Some ag ->
  arrays w !! position ag = Some p ->
  map length p = replicate (n_variables ag) (n_dimensions ag) ->
  extends w (accepted function w l ag p).
Proof.
  intros Hobj Harr Hshape l' nv nd (a & x & Ho & Ha & Hnv & Hnd & Hs).
  destruct (decide (l' = l)) as [->|Hne].
  - assert (a = ag) by congruence. subst a.
    assert (x = p) by congruence. subst x.
    eexists _, (candidate_position w ag p). unfold accepted; world.
    split; [apply lookup_insert_eq|]. cbn [position n_variables n_dimensions].
    split; [apply lookup_insert_eq|].
    rewrite candidate_shape by exact Hshape. auto.
  - exists a, x. split; [by apply accepted_object|].
    split; [by apply accepted_array|done].
Qed.

Lemma py_div_defined x y : ~ y == 0 -> py_div x y = Ok (x / y).
Proof.
  intros H. unfold py_div. destruct (Qeq_bool y 0) eqn:E; [|reflexivity].
  apply Qeq_bool_iff in E. contradiction.
Qed.

Lemma py_div_zero x y : y == 0 -> py_div x y = Raise ZeroDivisionError.
Proof.
  intros H. unfold py_div. apply Qeq_bool_iff in H. now rewrite H.
Qed.

Lemma Qltb_false_iff x y : Qltb x y = false <-> ~ x < y.
Proof.
  rewrite <- Qltb_lt. destruct (Qltb x y); split; congruence.
Qed.

Lemma for_each_cons {A} (x : A) l body w :
  for_each (x :: l) body w
  = match body x w with Ok (_, w') => for_each l body w' | Raise e => Raise e end.
Proof. reflexivity. Qed.


(** ** Parameter setters *)

Lemma non_numeric_is_rejected v : ~ numeric v -> as_float_or_int v = None.
Proof. destruct v; cbn; intros H; try reflexivity; now destruct H. Qed.

Lemma negative_is_below_zero v :
  negative v -> exists q, as_float_or_int v = Some q /\ Qltb q 0 = true.
Proof.
  destruct v as [z|q|b|s|]; cbn; intros H; try now destruct H.
  - exists (inject_Z z). split; [reflexivity|]. apply Qltb_lt.
    change 0 with (inject_Z 0). now rewrite <- Zlt_Qlt.
  - exists q. split; [reflexivity|]. now apply Qltb_lt.
Qed.

(** C5. Each setter checks the value it is given when it is assigned, as a
    function of that value alone: [T], [beta] and [alpha] raise a type
    error for a value that is not a number and a value error for a
    negative one; [n_updates] raises a type error for a value that is not
    an integer (2.5 for one) and a value error for zero and for a negative
    integer. *)
Theorem setters_validate_at_assignment (v : PyVal) (sa : SA.t) (cem : CEM.t) :
  (~ numeric v ->
   SA.set_T v sa = Raise (TypeError "`T` should be a float or integer") /\
   SA.set_beta v sa = Raise (TypeError "`beta` should be a float or integer") /\
   CEM.set_alpha v cem = Raise (TypeError "`alpha` should be a float or integer")) /\
  (negative v ->
   SA.set_T v sa = Raise (ValueError "`T` should be >= 0") /\
   SA.set_beta v sa = Raise (ValueError "`beta` should be >= 0") /\
   CEM.set_alpha v cem = Raise (ValueError "`alpha` should be >= 0")) /\
  (~ integer v ->
   CEM.set_n_updates v cem = Raise (TypeError "`n_updates` should be an integer")) /\
  CEM.set_n_updates (PyFloat 2.5) cem
    = Raise (TypeError "`n_updates` should be an integer") /\
  (forall z, (z <= 0)%Z ->
   CEM.set_n_updates (PyInt z) cem = Raise (ValueError "`n_updates` should be > 0")).
Proof.
  split; [|split; [|split; [|split]]].
  - intros H. apply non_numeric_is_rejected in H.
    unfold SA.set_T, SA.validate_T, SA.set_beta, SA.validate_beta,
      CEM.set_alpha, CEM.validate_alpha. now rewrite H.
  - intros H. apply negative_is_below_zero in H as (q & Hq & Hneg).
    unfold SA.set_T, SA.validate_T, SA.set_beta, SA.validate_beta,
      CEM.set_alpha, CEM.validate_alpha. now rewrite Hq, Hneg.
  - intros H. unfold CEM.set_n_updates, CEM.validate_n_updates.
    destruct v; cbn in *; try reflexivity; now destruct H.
  - reflexivity.
  - intros z Hz. unfold CEM.set_n_updates, CEM.validate_n_updates. cbn.
    apply Z.leb_le in Hz. now rewrite Hz.
Qed.

(** What is neither rejected for its type nor for its range is stored. *)
Lemma setters_accept (sa : SA.t) (cem : CEM.t) :
  (forall v q, as_float_or_int v = Some q -> 0 <= q ->
     SA.set_T v sa = Ok (SA.mk q (SA.beta sa)) /\
     SA.set_beta v sa = Ok (SA.mk (SA.T sa) q) /\
     CEM.set_alpha v cem = Ok (CEM.mk (CEM.n_updates cem) q)) /\
  (forall v z, as_int v = Some z -> (0 < z)%Z ->
     CEM.set_n_updates v cem = Ok (CEM.mk z (CEM.alpha cem))).
Proof.
  split.
  - intros v q Hv Hq. apply Qltb_ge in Hq.
    unfold SA.set_T, SA.validate_T, SA.set_beta, SA.validate_beta,
      CEM.set_alpha, CEM.validate_alpha. now rewrite Hv, Hq.
  - intros v z Hv Hz. unfold CEM.set_n_updates, CEM.validate_n_updates.
    rewrite Hv. apply Z.leb_gt in Hz. now rewrite Hz.
Qed.

(** ** Reasoning about computations *)

Lemma bind_Ok {A B} (c : M A) (k : A -> M B) w r :
  bind c k w = Ok r -> exists a w1, c w = Ok (a, w1) /\ k a w1 = Ok r.
Proof.
  rewrite bind_run. destruct (c w) as [[a w1]|e]; [|discriminate]. eauto.
Qed.

Lemma lift_Ok {A} (r : res A) w a w' : lift r w = Ok (a, w') -> r = Ok a /\ w' = w.
Proof. unfold lift. destruct r; [|discriminate]. intros [= -> ->]. auto. Qed.

Lemma quiet_ret {A} (a : A) : quiet (ret a).
Proof. intros w b w' [= _ ->]. reflexivity. Qed.

Lemma quiet_raise {A} e : quiet (@raise A e).
Proof. intros w b w' [=]. Qed.

Lemma quiet_lift {A} (r : res A) : quiet (lift r).
Proof. intros w a w' H. apply lift_Ok in H as [_ ->]. reflexivity. Qed.

Lemma quiet_bind {A B} (c : M A) (k : A -> M B) :
  quiet c -> (forall a, quiet (k a)) -> quiet (bind c k).
Proof.
  intros Hc Hk w b w' H. apply bind_Ok in H as (a & w1 & H1 & H2).
  rewrite (Hk _ _ _ _ H2). eapply Hc, H1.
Qed.

Lemma quiet_get_agent l : quiet (get_agent l).
Proof.
  intros w a w'. unfold get_agent. destruct (objects w !! l); [|discriminate].
  now intros [= _ ->].
Qed.

Lemma quiet_get_array l : quiet (get_array l).
Proof.
  intros w a w'. unfold get_array. destruct (arrays w !! l); [|discriminate].
  now intros [= _ ->].
Qed.

Lemma quiet_set_agent l a : quiet (set_agent l a).
Proof. intros w b w' [= _ <-]. reflexivity. Qed.

Lemma quiet_set_array l a : quiet (set_array l a).
Proof. intros w b w' [= _ <-]. reflexivity. Qed.

Lemma quiet_new_array a : quiet (new_array a).
Proof. intros w b w' [= _ <-]. reflexivity. Qed.

Lemma quiet_new_agent a : quiet (new_agent a).
Proof. intros w b w' [= _ <-]. reflexivity. Qed.

Lemma quiet_draw : quiet draw.
Proof. intros w b w' [= _ <-]. reflexivity. Qed.

Lemma quiet_for_each {A} (l : list A) body :
  (forall x, quiet (body x)) -> quiet (for_each l body).
Proof.
  intros Hb. induction l as [|x l IH]; cbn [for_each].
  - apply quiet_ret.
  - apply quiet_bind; [apply Hb|intros _; exact IH].
Qed.

Lemma quiet_for_state {A S} (l : list A) (body : A -> S -> M S) s :
  (forall x s, quiet (body x s)) -> quiet (for_state l body s).
Proof.
  intros Hb. revert s. induction l as [|x l IH]; intros s; cbn [for_state].
  - apply quiet_ret.
  - apply quiet_bind; [apply Hb|intros s'; apply IH].
Qed.

Create HintDb quiet.
#[local] Hint Resolve quiet_ret quiet_raise quiet_lift quiet_get_agent quiet_get_array
  quiet_set_agent quiet_set_array quiet_new_array quiet_new_agent quiet_draw : quiet.

(** Splits a computation into its steps and closes the primitive ones. *)
Ltac quiet_steps :=
  repeat first
    [ apply quiet_bind; [|intros ?]
    | apply quiet_for_each; intros ?
    | apply quiet_for_state; intros ? ?
    | progress auto with quiet
    | match goal with
      | |- quiet (if ?b then _ else _) => destruct b
      | |- quiet (match ?x with _ => _ end) => destruct x
      end ].

Lemma quiet_draws n : quiet (draws n).
Proof. induction n; cbn [draws]; quiet_steps. Qed.
#[local] Hint Resolve quiet_draws : quiet.

Lemma quiet_gaussian_number m s n : quiet (generate_gaussian_random_number m s n).
Proof. unfold generate_gaussian_random_number. quiet_steps. Qed.
#[local] Hint Resolve quiet_gaussian_number : quiet.

Lemma quiet_gaussian_matrix m s r c : quiet (generate_gaussian_random_matrix m s r c).
Proof. induction r; cbn [generate_gaussian_random_matrix]; quiet_steps. Qed.

Lemma quiet_uniform a b : quiet (generate_uniform_random_number a b).
Proof. unfold generate_uniform_random_number. quiet_steps. Qed.

Lemma quiet_deepcopy_array l : quiet (deepcopy_array l).
Proof. unfold deepcopy_array. quiet_steps. Qed.
#[local] Hint Resolve quiet_gaussian_matrix quiet_uniform quiet_deepcopy_array : quiet.

Lemma quiet_deepcopy_agent l : quiet (deepcopy_agent l).
Proof. unfold deepcopy_agent. quiet_steps. Qed.

Lemma quiet_read_position l : quiet (read_position l).
Proof. unfold read_position. quiet_steps. Qed.

Lemma quiet_set_fit l f : quiet (set_fit l f).
Proof. unfold set_fit. quiet_steps. Qed.

Lemma quiet_set_position l p : quiet (set_position l p).
Proof. unfold set_position. quiet_steps. Qed.

Lemma quiet_Agent_clip_by_bound l : quiet (Agent_clip_by_bound l).
Proof. unfold Agent_clip_by_bound. quiet_steps. Qed.

Lemma quiet_iadd_position l noise : quiet (iadd_position l noise).
Proof. unfold iadd_position. quiet_steps. Qed.

Lemma quiet_set_row l j v : quiet (set_row l j v).
Proof. unfold set_row. quiet_steps. Qed.
#[local] Hint Resolve quiet_deepcopy_agent quiet_read_position quiet_set_fit
  quiet_set_position quiet_Agent_clip_by_bound quiet_iadd_position quiet_set_row : quiet.

Lemma quiet_keyed agents : quiet (keyed agents).
Proof. induction agents; cbn [keyed]; quiet_steps. Qed.

Lemma quiet_positions agents : quiet (positions agents).
Proof. induction agents; cbn [positions]; quiet_steps. Qed.

Lemma quiet_snapshot agents : quiet (History.snapshot agents).
Proof. induction agents; cbn [History.snapshot]; quiet_steps. Qed.
#[local] Hint Resolve quiet_keyed quiet_positions quiet_snapshot : quiet.

Lemma quiet_sort_agents agents : quiet (sort_agents agents).
Proof. unfold sort_agents. quiet_steps. Qed.

Lemma quiet_Space_clip_by_bound space : quiet (Space.clip_by_bound space).
Proof. unfold Space.clip_by_bound. quiet_steps. Qed.

Lemma quiet_dump h agents best : quiet (History.dump h agents best).
Proof. unfold History.dump. quiet_steps. Qed.

Lemma quiet_evaluate space function hook :
  hook_quiet hook -> quiet (Optimizer._evaluate space function hook).
Proof.
  intros Hh. unfold Optimizer._evaluate.
  apply quiet_bind; [destruct hook; [apply Hh|apply quiet_ret]|intros _].
  quiet_steps.
Qed.

Lemma quiet_sa_accept l a : quiet (SA.accept l a).
Proof. unfold SA.accept. quiet_steps. Qed.
#[local] Hint Resolve quiet_sort_agents quiet_Space_clip_by_bound quiet_dump
  quiet_sa_accept : quiet.

Lemma quiet_sa_step np_exp self function l : quiet (SA.step np_exp self function l).
Proof. unfold SA.step. quiet_steps. Qed.

Lemma quiet_sa_update np_exp py_mul self agents function :
  quiet (SA._update np_exp py_mul self agents function).
Proof. unfold SA._update. quiet_steps. Qed.

Lemma quiet_cem_resample function mean std l : quiet (CEM.resample function mean std l).
Proof.
  unfold CEM.resample. quiet_steps.
Qed.

Lemma quiet_cem_update np_sqrt self agents function mean std :
  quiet (CEM._update np_sqrt self agents function mean std).
Proof.
  unfold CEM._update, CEM._create_new_samples. quiet_steps.
Qed.

(** ** Live, well-shaped populations stay so *)

Lemma extends_same_store w w' :
  objects w' = objects w -> arrays w' = arrays w -> extends w w'.
Proof.
  intros Ho Ha l nv nd (a & p & H1 & H2 & H3). exists a, p.
  rewrite Ho, Ha. auto.
Qed.

Lemma extends_set_array w w' q x y :
  objects w' = objects w ->
  arrays w' = <[q := y]> (arrays w) ->
  arrays w !! q = Some x ->
  map length y = map length x ->
  extends w w'.
Proof.
  intros Ho Ha Hq Hs l nv nd (a & p & H1 & H2 & Hnv & Hnd & H3).
  destruct (decide (position a = q)) as [E|E].
  - exists a, y. rewrite Ho, Ha, E, lookup_insert_eq.
    assert (p = x) by congruence. subst p. rewrite Hs. auto.
  - exists a, p. rewrite Ho, Ha, lookup_insert_ne by congruence. auto.
Qed.

Lemma extends_set_fit w w' l a f :
  arrays w' = arrays w ->
  objects w' = <[l := mkAgent (n_variables a) (n_dimensions a) (position a) f
                               (lb a) (ub a)]> (objects w) ->
  objects w !! l = Some a ->
  extends w w'.
Proof.
  intros Ha Ho Hl l' nv nd (a' & p & H1 & H2 & Hnv & Hnd & H3).
  destruct (decide (l' = l)) as [->|E].
  - assert (a' = a) by congruence. subst a'.
    eexists _, p. rewrite Ho, Ha, lookup_insert_eq. cbn. auto.
  - exists a', p. rewrite Ho, Ha, lookup_insert_ne by congruence. auto.
Qed.

Lemma population_extends w w' agents :
  extends w w' -> population w agents -> population w' agents.
Proof.
  intros He Hp. unfold population in *. eapply Forall_impl; [exact Hp|].
  intros l (nv & nd & H). exists nv, nd. by apply He.
Qed.

Lemma for_each_safe {B} (l : list B) (sel : B -> loc) body w :
  (forall x w, (exists nv nd, shaped nv nd w (sel x)) ->
     exists w', body x w = Ok (tt, w') /\ extends w w') ->
  population w (map sel l) ->
  exists w', for_each l body w = Ok (tt, w') /\ extends w w'.
Proof.
  intros Hb. revert w. induction l as [|x l IH]; intros w Hp.
  - exists w. split; [reflexivity|apply extends_refl].
  - apply Forall_cons in Hp as [Hx Hp].
    destruct (Hb x w Hx) as (w1 & H1 & E1).
    destruct (IH w1 (population_extends _ _ _ E1 Hp)) as (w2 & H2 & E2).
    exists w2. rewrite for_each_cons, H1. split; [exact H2|].
    eapply extends_trans; eauto.
Qed.

Lemma Agent_clip_by_bound_safe w l :
  (exists nv nd, shaped nv nd w l) ->
  exists w', Agent_clip_by_bound l w = Ok (tt, w') /\ extends w w'.
Proof.
  intros (nv & nd & a & p & Ho & Ha & _).
  eexists. split; [apply (clip_by_bound_run _ _ _ _ Ho Ha)|].
  eapply extends_set_array; [reflexivity|reflexivity|exact Ha|].
  apply clip_rows_shape.
Qed.

Lemma evaluate_agent_safe function w l :
  (exists nv nd, shaped nv nd w l) ->
  exists w', (p <- read_position l ;; set_fit l (function p)) w = Ok (tt, w') /\
             extends w w'.
Proof.
  intros (nv & nd & a & p & Ho & Ha & _).
  eexists. rewrite bind_run, (read_position_run _ _ _ _ Ho Ha).
  split; [apply (set_fit_run _ _ _ _ Ho)|].
  eapply extends_set_fit; [reflexivity|reflexivity|exact Ho].
Qed.

Lemma snapshot_safe w agents :
  population w agents ->
  exists ss, History.snapshot agents w = Ok (ss, w) /\ length ss = length agents.
Proof.
  induction agents as [|l agents IH]; intros Hp.
  - exists []. split; reflexivity.
  - apply Forall_cons in Hp as [(nv & nd & a & p & Ho & Ha & _) Hp].
    destruct (IH Hp) as (ss & Hss & Hlen). exists ((p, fit a) :: ss).
    cbn [History.snapshot].
    rewrite bind_run, (get_agent_run _ _ _ Ho). cbv beta iota.
    rewrite bind_run, (get_array_run _ _ _ Ha). cbv beta iota.
    rewrite bind_run, Hss. cbn. now rewrite Hlen.
Qed.

Lemma Space_clip_by_bound_safe w space :
  population w (Space.agents space) ->
  exists w', Space.clip_by_bound space w = Ok (tt, w') /\ extends w w'.
Proof.
  intros Hp. unfold Space.clip_by_bound.
  apply (for_each_safe _ id); [intros; now apply Agent_clip_by_bound_safe|].
  now rewrite map_id.
Qed.

Lemma evaluate_safe w space function hook :
  hook_safe hook ->
  population w (Space.agents space) ->
  exists space' w',
    Optimizer._evaluate space function hook w = Ok (space', w') /\
    extends w w' /\
    Space.agents space' = Space.agents space /\
    Space.n_iterations space' = Space.n_iterations space.
Proof.
  intros Hh Hp. unfold Optimizer._evaluate.
  assert (exists w1, match hook with Some h => h space | None => ret tt end w
                     = Ok (tt, w1) /\ extends w w1) as (w1 & H1 & E1).
  { destruct hook as [h|]; [apply Hh, Hp|].
    exists w. split; [reflexivity|apply extends_refl]. }
  rewrite bind_run, H1. cbv beta iota.
  destruct (for_each_safe (Space.agents space) id
              (fun l => p <- read_position l ;; set_fit l (function p)) w1)
    as (w2 & H2 & E2).
  { intros; now apply evaluate_agent_safe. }
  { rewrite map_id. eapply population_extends; eauto. }
  rewrite bind_run, H2. cbv beta iota.
  destruct (snapshot_safe w2 (Space.agents space)) as (ss & H3 & _).
  { eapply population_extends; [|exact Hp]. eapply extends_trans; eauto. }
  rewrite bind_run, H3. cbv beta iota.
  eexists _, w2. split; [reflexivity|].
  split; [eapply extends_trans; eauto|]. split; reflexivity.
Qed.

Lemma dump_safe w h agents best :
  population w agents ->
  exists h', History.dump h agents best w = Ok (h', w) /\
    History.store_best_only h' = History.store_best_only h /\
    length (History.records h') = S (length (History.records h)).
Proof.
  intros Hp. unfold History.dump. destruct (History.store_best_only h) eqn:E.
  - eexists. split; [reflexivity|]. cbn. rewrite length_app. cbn. split; [done|lia].
  - destruct (snapshot_safe w agents Hp) as (ss & Hss & _).
    rewrite bind_run, Hss. cbv beta iota.
    eexists. split; [reflexivity|]. cbn. rewrite length_app. cbn. split; [done|lia].
Qed.

(** *** Simulated Annealing *)

Lemma sa_step_safe np_exp self function w l :
  ~ SA.T self == 0 ->
  (exists nv nd, shaped nv nd w l) ->
  exists w', SA.step np_exp self function l w = Ok (tt, w') /\ extends w w'.
Proof.
  intros HT (nv & nd & a & p & Ho & Ha & Hnv & Hnd & Hs).
  subst nv nd.
  rewrite (step_run np_exp self function w l a p Ho Ha Hs). cbv zeta.
  rewrite (py_div_defined _ _ HT).
  destruct (Qltb _ (fit a));
    [|destruct (Qltb _ (np_exp _))];
    eexists; (split; [reflexivity|]);
    solve [ now apply accepted_extends | apply tried_extends ].
Qed.

Lemma sa_update_safe np_exp py_mul self agents function w p :
  0 < SA.T self ->
  py_mul (SA.T self) (SA.beta self) = Ok p -> 0 <= p ->
  population w agents ->
  exists w', SA._update np_exp py_mul self agents function w
             = Ok (SA.mk p (SA.beta self), w') /\
             extends w w'.
Proof.
  intros HT Hmul Hp0 Hp. unfold SA._update.
  destruct (for_each_safe agents id (SA.step np_exp self function) w)
    as (w' & H & E).
  { intros; apply sa_step_safe; [lra|assumption]. }
  { now rewrite map_id. }
  exists w'. rewrite bind_run, H. cbv beta iota.
  rewrite bind_run, Hmul. cbn [lift]. cbv beta iota.
  unfold SA.set_T, SA.validate_T. cbn [as_float_or_int].
  apply Qltb_ge in Hp0. rewrite Hp0. split; [reflexivity|exact E].
Qed.

(** ** The calls of a run *)

Lemma call_Ok {A} (e : event) (c : M A) w a w' :
  Optimizer.call e c w = Ok (a, w') ->
  (quiet c -> trace w' = trace w ++ [e]) /\
  c (mkWorld (arrays w) (objects w) (tape w) (cursor w) (trace w ++ [e])) = Ok (a, w').
Proof.
  intros H. unfold Optimizer.call in H. rewrite bind_run in H. cbn [log] in H.
  split; [|exact H]. intros Hq. now rewrite (Hq _ _ _ H).
Qed.

Lemma call_run {A} (e : event) (c : M A) w :
  Optimizer.call e c w
  = c (mkWorld (arrays w) (objects w) (tape w) (cursor w) (trace w ++ [e])).
Proof. reflexivity. Qed.

Lemma logged_extends w e :
  extends w (mkWorld (arrays w) (objects w) (tape w) (cursor w) (trace w ++ [e])).
Proof. now apply extends_same_store. Qed.

Lemma evaluate_Ok space function hook w space' w' :
  Optimizer._evaluate space function hook w = Ok (space', w') ->
  Space.agents space' = Space.agents space /\
  Space.n_iterations space' = Space.n_iterations space.
Proof.
  unfold Optimizer._evaluate. intros H.
  apply bind_Ok in H as (? & ? & _ & H). apply bind_Ok in H as (? & ? & _ & H).
  apply bind_Ok in H as (? & ? & _ & H). injection H as <- _. split; reflexivity.
Qed.

Lemma dump_Ok h agents best w h' w' :
  History.dump h agents best w = Ok (h', w') ->
  History.store_best_only h' = History.store_best_only h /\
  exists r, History.records h' = History.records h ++ [r].
Proof.
  unfold History.dump. destruct (History.store_best_only h) eqn:E.
  - intros [= <- _]. cbn. eauto.
  - intros H. apply bind_Ok in H as (? & ? & _ & H). injection H as <- _. cbn. eauto.
Qed.

Lemma sa_update_Ok np_exp py_mul self agents function w self' w' :
  SA._update np_exp py_mul self agents function w = Ok (self', w') ->
  for_each agents (SA.step np_exp self function) w = Ok (tt, w') /\
  exists p, py_mul (SA.T self) (SA.beta self) = Ok p /\ 0 <= p /\
            self' = SA.mk p (SA.beta self).
Proof.
  unfold SA._update. intros H. apply bind_Ok in H as ([] & w1 & H1 & H).
  apply bind_Ok in H as (p & w2 & Hp & H).
  apply lift_Ok in Hp as [Hp ->]. apply lift_Ok in H as [H ->].
  unfold SA.set_T, SA.validate_T in H. cbn [as_float_or_int] in H.
  destruct (Qltb p 0) eqn:E; [discriminate|].
  injection H as <-. split; [exact H1|]. exists p.
  split; [exact Hp|]. split; [|reflexivity]. now apply Qltb_ge.
Qed.




(** *** The temperature over the passes *)

Lemma warm_first py_mul T beta n :
  warm py_mul T beta (S n) ->
  0 < T /\ exists t, py_mul T beta = Ok t /\ 0 <= t /\ warm py_mul t beta n.
Proof.
  intros [Hk (tn & Hn & Hn0)]. split.
  - destruct (Hk 0%nat) as (t & E & Ht); [lia|]. injection E as ->. exact Ht.
  - cbn [cooled] in Hn. destruct (py_mul T beta) as [t1|e] eqn:E1; [|discriminate].
    exists t1. split; [reflexivity|]. split.
    + destruct n as [|n].
      * injection Hn as ->. exact Hn0.
      * destruct (Hk 1%nat) as (t & E & Ht); [lia|].
        cbn [cooled] in E. rewrite E1 in E. injection E as ->. lra.
    + split.
      * intros k Hlt. destruct (Hk (S k)) as (t & E & Ht); [lia|].
        cbn [cooled] in E. rewrite E1 in E. eauto.
      * eauto.
Qed.


(** *** [SA.run] *)

Lemma sa_iteration_Ok np_exp py_mul function hook t s w s' w' :
  SA.iteration np_exp py_mul function hook t s w = Ok (s', w') ->
  (exists p, py_mul (SA.T (SA.self_ s)) (SA.beta (SA.self_ s)) = Ok p /\ 0 <= p /\
             SA.self_ s' = SA.mk p (SA.beta (SA.self_ s))) /\
  Space.agents (SA.space_ s') = Space.agents (SA.space_ s) /\
  Space.n_iterations (SA.space_ s') = Space.n_iterations (SA.space_ s) /\
  History.store_best_only (SA.history_ s') = History.store_best_only (SA.history_ s) /\
  (exists r, History.records (SA.history_ s') = History.records (SA.history_ s) ++ [r]) /\
  (hook_quiet hook -> trace w' = trace w ++ iteration_events).
Proof.
  intros H. unfold SA.iteration in H.
  apply bind_Ok in H as (self & w1 & H1 & H).
  apply call_Ok in H1 as [T1 H1]. apply sa_update_Ok in H1 as [_ H1].
  apply bind_Ok in H as ([] & w2 & H2 & H).
  apply call_Ok in H2 as [T2 _].
  apply bind_Ok in H as (space & w3 & H3 & H).
  apply call_Ok in H3 as [T3 H3]. apply evaluate_Ok in H3 as [A3 N3].
  apply bind_Ok in H as (history & w4 & H4 & H).
  apply call_Ok in H4 as [T4 H4]. apply dump_Ok in H4 as [S4 R4].
  injection H as <- <-. cbn [SA.self_ SA.space_ SA.history_].
  repeat (split; [assumption|]). intros Hh.
  rewrite T4, T3, T2, T1;
    auto using quiet_dump, quiet_evaluate, quiet_Space_clip_by_bound, quiet_sa_update.
  unfold iteration_events. now rewrite <- !app_assoc.
Qed.

Lemma sa_loop_Ok np_exp py_mul function hook k : forall a s w s' w',
  for_state (seq a k) (SA.iteration np_exp py_mul function hook) s w = Ok (s', w') ->
  cooled py_mul (SA.T (SA.self_ s)) (SA.beta (SA.self_ s)) k = Ok (SA.T (SA.self_ s')) /\
  SA.beta (SA.self_ s') = SA.beta (SA.self_ s) /\
  Space.agents (SA.space_ s') = Space.agents (SA.space_ s) /\
  History.store_best_only (SA.history_ s') = History.store_best_only (SA.history_ s) /\
  length (History.records (SA.history_ s'))
  = (length (History.records (SA.history_ s)) + k)%nat /\
  (hook_quiet hook -> trace w' = trace w ++ concat (replicate k iteration_events)).
Proof.
  induction k as [|k IH]; intros a s w s' w' H.
  - injection H as <- <-. cbn [replicate concat]. rewrite app_nil_r, Nat.add_0_r.
    split; [reflexivity|auto].
  - cbn [seq for_state] in H. apply bind_Ok in H as (s1 & w1 & H1 & H).
    apply sa_iteration_Ok in H1 as ((p & Hp & _ & Hself) & A1 & _ & S1 & (r & R1) & T1).
    apply IH in H as (HT & Hb & A2 & S2 & R2 & T2).
    rewrite Hself in HT, Hb. cbn [SA.T SA.beta] in HT, Hb.
    split; [|split; [|split; [|split; [|split]]]].
    + cbn [cooled]. rewrite Hp. exact HT.
    + exact Hb.
    + congruence.
    + congruence.
    + rewrite R2, R1, length_app. cbn. lia.
    + intros Hh. rewrite (T2 Hh), (T1 Hh). cbn [replicate concat].
      now rewrite <- app_assoc.
Qed.

Lemma sa_run_Ok np_exp py_mul self space function sbo hook w s w' :
  SA.run np_exp py_mul self space function sbo hook w = Ok (s, w') ->
  cooled py_mul (SA.T self) (SA.beta self) (Space.n_iterations space)
  = Ok (SA.T (SA.self_ s)) /\
  SA.beta (SA.self_ s) = SA.beta self /\
  Space.agents (SA.space_ s) = Space.agents space /\
  History.store_best_only (SA.history_ s) = sbo /\
  length (History.records (SA.history_ s)) = Space.n_iterations space /\
  (hook_quiet hook ->
   trace w' = trace w ++ run_events sbo (Space.n_iterations space)).
Proof.
  intros H. unfold SA.run in H.
  apply bind_Ok in H as (space1 & w1 & H1 & H).
  apply call_Ok in H1 as [T1 H1]. apply evaluate_Ok in H1 as [A1 N1].
  apply bind_Ok in H as (history & w2 & H2 & H).
  apply call_Ok in H2 as [T2 H2]. injection H2 as <- _.
  apply sa_loop_Ok in H as (HT & Hb & A3 & S3 & R3 & T3).
  cbn [SA.self_ SA.space_ SA.history_ History.new History.records
       History.store_best_only] in *.
  rewrite N1 in *. split; [|split; [|split; [|split; [|split]]]]; auto.
  - congruence.
  - intros Hh. rewrite (T3 Hh), T2, T1; auto using quiet_ret, quiet_evaluate.
    unfold run_events. cbn [app]. now rewrite <- !app_assoc.
Qed.

Lemma sa_iteration_safe np_exp py_mul function hook t s w p :
  hook_safe hook ->
  0 < SA.T (SA.self_ s) ->
  py_mul (SA.T (SA.self_ s)) (SA.beta (SA.self_ s)) = Ok p -> 0 <= p ->
  population w (Space.agents (SA.space_ s)) ->
  exists s' w', SA.iteration np_exp py_mul function hook t s w = Ok (s', w') /\
    extends w w' /\
    SA.self_ s' = SA.mk p (SA.beta (SA.self_ s)) /\
    Space.agents (SA.space_ s') = Space.agents (SA.space_ s).
Proof.
  intros Hh HT Hmul Hp0 Hp. unfold SA.iteration.
  rewrite bind_run, call_run.
  destruct (sa_update_safe np_exp py_mul (SA.self_ s) (Space.agents (SA.space_ s))
              function _ p HT Hmul Hp0
              (population_extends _ _ _ (logged_extends w EvUpdate) Hp))
    as (w1 & H1 & E1).
  rewrite H1. cbv beta iota.
  pose proof (extends_trans _ _ _ (logged_extends w EvUpdate) E1) as E01.
  rewrite bind_run, call_run.
  destruct (Space_clip_by_bound_safe _ (SA.space_ s)
              (population_extends _ _ _ (extends_trans _ _ _ E01 (logged_extends w1 EvClip)) Hp))
    as (w2 & H2 & E2).
  rewrite H2. cbv beta iota.
  pose proof (extends_trans _ _ _ (extends_trans _ _ _ E01 (logged_extends w1 EvClip)) E2)
    as E02.
  rewrite bind_run, call_run.
  destruct (evaluate_safe _ (SA.space_ s) function hook Hh
              (population_extends _ _ _ (extends_trans _ _ _ E02 (logged_extends w2 EvEvaluate)) Hp))
    as (space' & w3 & H3 & E3 & A3 & _).
  rewrite H3. cbv beta iota.
  pose proof (extends_trans _ _ _ (extends_trans _ _ _ E02 (logged_extends w2 EvEvaluate)) E3)
    as E03.
  rewrite bind_run, call_run.
  destruct (dump_safe _ (SA.history_ s) (Space.agents space') (Space.best_agent space')
              (population_extends _ _ _ (extends_trans _ _ _ E03 (logged_extends w3 EvDump))
                 (eq_ind_r (population _) Hp A3)))
    as (h' & H4 & _).
  rewrite H4. cbv beta iota.
  eexists _, _. split; [reflexivity|]. cbn [SA.self_ SA.space_].
  split; [|split; [reflexivity|exact A3]].
  eapply extends_trans; [exact E03|apply logged_extends].
Qed.

Lemma sa_loop_safe np_exp py_mul function hook k : forall a s w,
  hook_safe hook ->
  warm py_mul (SA.T (SA.self_ s)) (SA.beta (SA.self_ s)) k ->
  population w (Space.agents (SA.space_ s)) ->
  exists s' w',
    for_state (seq a k) (SA.iteration np_exp py_mul function hook) s w = Ok (s', w').
Proof.
  induction k as [|k IH]; intros a s w Hh Hw Hp.
  - eexists _, _. reflexivity.
  - cbn [seq for_state]. rewrite bind_run.
    apply warm_first in Hw as (HT & p & Hmul & Hp0 & Hw).
    destruct (sa_iteration_safe np_exp py_mul function hook a s w p Hh HT Hmul Hp0 Hp)
      as (s1 & w1 & H1 & E1 & Hself & A1).
    rewrite H1. cbv beta iota. apply IH; [exact Hh| |].
    + rewrite Hself. exact Hw.
    + rewrite A1. eapply population_extends; eauto.
Qed.

Lemma sa_run_safe np_exp py_mul self space function sbo hook w :
  hook_safe hook ->
  warm py_mul (SA.T self) (SA.beta self) (Space.n_iterations space) ->
  population w (Space.agents space) ->
  exists s w', SA.run np_exp py_mul self space function sbo hook w = Ok (s, w').
Proof.
  intros Hh Hw Hp. unfold SA.run.
  rewrite bind_run, call_run.
  destruct (evaluate_safe _ space function hook Hh
              (population_extends _ _ _ (logged_extends w EvEvaluate) Hp))
    as (space' & w1 & H1 & E1 & A1 & N1).
  rewrite H1. cbv beta iota. rewrite bind_run, call_run. cbn [ret]. cbv beta iota.
  rewrite N1. apply sa_loop_safe; cbn [SA.self_ SA.space_]; auto.
  rewrite A1. eapply population_extends; [|exact Hp].
  eapply extends_trans; [apply logged_extends|].
  eapply extends_trans; [exact E1|]. apply logged_extends.
Qed.

(** ** Sorting *)

Lemma insert_by_key_perm {A} (x : Q * A) l : Permutation (x :: l) (insert_by_key x l).
Proof.
  induction l as [|y l IH]; cbn [insert_by_key]; [reflexivity|].
  destruct (Qltb (fst x) (fst y)); [reflexivity|].
  rewrite Permutation_swap. now apply Permutation_skip.
Qed.

Lemma insert_by_key_sorted {A} (x : Q * A) l :
  StronglySorted key_le l -> StronglySorted key_le (insert_by_key x l).
Proof.
  induction 1 as [|y l Hs IH Hy]; cbn [insert_by_key].
  - repeat constructor.
  - destruct (Qltb (fst x) (fst y)) eqn:E.
    + apply Qltb_lt in E. constructor; [now constructor|].
      constructor; [unfold key_le; lra|].
      eapply Forall_impl; [exact Hy|]. unfold key_le. intros z Hz. lra.
    + apply Qltb_ge in E. constructor; [exact IH|].
      rewrite <- insert_by_key_perm. constructor; [exact E|exact Hy].
Qed.

Lemma sort_by_key_acc {A} (l acc : list (Q * A)) :
  Permutation (acc ++ l) (fold_left (fun acc x => insert_by_key x acc) l acc) /\
  (StronglySorted key_le acc ->
   StronglySorted key_le (fold_left (fun acc x => insert_by_key x acc) l acc)).
Proof.
  revert acc. induction l as [|x l IH]; intros acc; cbn [fold_left].
  - rewrite app_nil_r. auto.
  - destruct (IH (insert_by_key x acc)) as [Hp Hs]. split.
    + rewrite <- Hp, <- insert_by_key_perm. cbn [app]. symmetry. apply Permutation_middle.
    + intros H. now apply Hs, insert_by_key_sorted.
Qed.

Lemma sort_by_key_perm {A} (l : list (Q * A)) : Permutation l (sort_by_key l).
Proof. apply (sort_by_key_acc l []). Qed.

Lemma sort_by_key_sorted {A} (l : list (Q * A)) : StronglySorted key_le (sort_by_key l).
Proof. apply (sort_by_key_acc l []). constructor. Qed.

Lemma keyed_Ok agents : forall w ks w',
  keyed agents w = Ok (ks, w') ->
  w' = w /\ ks = map (fun l => (fitness w l, l)) agents.
Proof.
  induction agents as [|l agents IH]; intros w ks w' H; cbn [keyed] in H.
  - now injection H as <- <-.
  - apply bind_Ok in H as (a & w1 & H1 & H). unfold get_agent in H1.
    destruct (objects w !! l) as [a'|] eqn:E; [|discriminate].
    injection H1 as <- <-.
    apply bind_Ok in H as (ks' & w2 & H2 & H). apply IH in H2 as [-> ->].
    injection H as <- <-. split; [reflexivity|]. cbn [map]. f_equal. f_equal.
    unfold fitness. now rewrite E.
Qed.

Lemma sorted_by_fitness w (ks : list (Q * loc)) :
  Forall (fun x => fst x = fitness w (snd x)) ks ->
  StronglySorted key_le ks ->
  StronglySorted (fun l1 l2 => fitness w l1 <= fitness w l2) (map snd ks).
Proof.
  intros Hk Hs. induction Hs as [|x l Hs IH Hx]; cbn [map]; constructor.
  - apply IH. eapply Forall_inv_tail, Hk.
  - apply Forall_cons in Hk as [Hx0 Hk].
    apply List.Forall_forall. intros y Hy. apply in_map_iff in Hy as (z & <- & Hz).
    rewrite List.Forall_forall in Hx, Hk.
    rewrite <- Hx0, <- (Hk z Hz). apply Hx, Hz.
Qed.

Lemma sort_agents_Ok agents w agents' w' :
  sort_agents agents w = Ok (agents', w') ->
  w' = w /\ Permutation agents agents' /\
  StronglySorted (fun l1 l2 => fitness w l1 <= fitness w l2) agents'.
Proof.
  unfold sort_agents. intros H. apply bind_Ok in H as (ks & w1 & H1 & H).
  apply keyed_Ok in H1 as [-> ->]. injection H as <- <-.
  pose proof (sort_by_key_perm (map (fun l => (fitness w l, l)) agents)) as Hp.
  split; [reflexivity|]. split.
  - apply (Permutation_map snd) in Hp. rewrite map_map in Hp. cbn in Hp.
    now rewrite map_id in Hp.
  - apply sorted_by_fitness; [|apply sort_by_key_sorted].
    eapply Permutation_Forall; [exact Hp|].
    apply List.Forall_forall. intros x Hx. apply in_map_iff in Hx as (l & <- & _).
    reflexivity.
Qed.

(** ** The elite positions *)

Lemma positions_Ok agents : forall w ps w',
  positions agents w = Ok (ps, w') ->
  w' = w /\
  Forall2 (fun l p => exists a, objects w !! l = Some a /\
                                arrays w !! position a = Some p) agents ps.
Proof.
  induction agents as [|l agents IH]; intros w ps w' H; cbn [positions] in H.
  - injection H as <- <-. split; [reflexivity|constructor].
  - apply bind_Ok in H as (p & w1 & H1 & H).
    unfold read_position in H1. apply bind_Ok in H1 as (a & w0 & H0 & H1).
    unfold get_agent in H0. destruct (objects w !! l) as [a'|] eqn:Eo; [|discriminate].
    injection H0 as <- <-.
    unfold get_array in H1. destruct (arrays w !! position a') as [p'|] eqn:Ea;
      [|discriminate].
    injection H1 as <- <-.
    apply bind_Ok in H as (ps' & w2 & H2 & H). apply IH in H2 as [-> HF].
    injection H as <- <-. split; [reflexivity|]. constructor; [eauto|exact HF].
Qed.

Lemma flat_rows_Ok w j agents : forall ps ups,
  Forall2 (fun l p => exists a, objects w !! l = Some a /\
                                arrays w !! position a = Some p) agents ps ->
  flat_rows ps j = Ok ups ->
  ups = variable_over w j agents.
Proof.
  induction agents as [|l agents IH]; intros ps ups HF H.
  - apply Forall2_nil_inv_l in HF as ->. cbn in H. now injection H as <-.
  - apply Forall2_cons_inv_l in HF as (p & ps' & (a & Ho & Ha) & HF & ->).
    cbn [flat_rows] in H. unfold index in H.
    destruct (p !! j) as [row|] eqn:Er; [|discriminate].
    destruct (flat_rows ps' j) as [rest|] eqn:Ef; [|discriminate].
    injection H as <-. unfold variable_over. cbn [map concat].
    f_equal; [|exact (IH _ _ HF Ef)].
    unfold variable_of. now rewrite Ho, Ha, Er.
Qed.

Lemma variable_slice_Ok w j agents ps ups :
  Forall2 (fun l p => exists a, objects w !! l = Some a /\
                                arrays w !! position a = Some p) agents ps ->
  variable_slice ps j = Ok ups ->
  ups = variable_over w j agents.
Proof.
  intros HF H. unfold variable_slice in H.
  destruct ps as [|p ps]; [discriminate|]. eapply flat_rows_Ok; eauto.
Qed.

(** ** Refitting the mean and the standard deviation *)

Lemma np_mean_Ok l m : np_mean l = Ok m -> l <> [] /\ m = average l.
Proof.
  unfold np_mean, average. destruct l; [discriminate|].
  intros [= <-]. split; [discriminate|reflexivity].
Qed.

Lemma assign_Ok {A} (a : list A) j x a' :
  assign a j x = Ok a' -> (j < length a)%nat /\ a' = <[j := x]> a.
Proof.
  unfold assign. case_bool_decide; [|discriminate]. intros [= <-]. auto.
Qed.

Lemma index_Ok {A} (a : list A) j x : index a j = Ok x <-> a !! j = Some x.
Proof.
  unfold index. destruct (a !! j); split; intros H; try discriminate;
    injection H as ->; reflexivity.
Qed.

Lemma refit_Ok np_sqrt self elite j mean std mean' std' :
  CEM.refit np_sqrt self elite j (mean, std) = Ok (mean', std') ->
  exists ups mean_j std_j,
    variable_slice elite j = Ok ups /\ ups <> [] /\
    mean !! j = Some mean_j /\ std !! j = Some std_j /\
    mean' = <[j := spec_mean (CEM.alpha self) mean_j ups]> mean /\
    std' = <[j := spec_std np_sqrt (CEM.alpha self) std_j
                    (spec_mean (CEM.alpha self) mean_j ups) ups]> std.
Proof.
  unfold CEM.refit, CEM._update_mean, CEM._update_std. intros H.
  destruct (variable_slice elite j) as [ups|] eqn:Eu; [|discriminate].
  destruct (index mean j) as [mean_j|] eqn:Em; [|discriminate].
  destruct (np_mean ups) as [m|] eqn:En; [|discriminate].
  apply np_mean_Ok in En as [Hne ->].
  destruct (assign mean j _) as [mean1|] eqn:Ea; [|discriminate].
  apply assign_Ok in Ea as [Hj ->].
  destruct (index (<[j := _]> mean) j) as [mean1_j|] eqn:Em1; [|discriminate].
  apply index_Ok in Em1. rewrite list_lookup_insert_eq in Em1 by exact Hj.
  injection Em1 as <-.
  destruct (index std j) as [std_j|] eqn:Es; [|discriminate].
  destruct (np_mean (map _ ups)) as [v|] eqn:Ev; [|discriminate].
  apply np_mean_Ok in Ev as [_ ->].
  destruct (assign std j _) as [std1|] eqn:Ea1; [|discriminate].
  apply assign_Ok in Ea1 as [_ ->]. injection H as <- <-.
  apply index_Ok in Em, Es. exists ups, mean_j, std_j. auto 10.
Qed.

Lemma refit_loop_Ok np_sqrt self elite k : forall a mean std ms w w',
  for_state (seq a k) (fun j ms => lift (CEM.refit np_sqrt self elite j ms))
    (mean, std) w = Ok (ms, w') ->
  w' = w /\
  length (fst ms) = length mean /\ length (snd ms) = length std /\
  (forall j, (j < a \/ a + k <= j)%nat ->
     fst ms !! j = mean !! j /\ snd ms !! j = std !! j) /\
  (forall j, (a <= j < a + k)%nat ->
     exists ups mean_j std_j,
       variable_slice elite j = Ok ups /\ ups <> [] /\
       mean !! j = Some mean_j /\ std !! j = Some std_j /\
       fst ms !! j = Some (spec_mean (CEM.alpha self) mean_j ups) /\
       snd ms !! j = Some (spec_std np_sqrt (CEM.alpha self) std_j
                             (spec_mean (CEM.alpha self) mean_j ups) ups)).
Proof.
  induction k as [|k IH]; intros a mean std ms w w' H.
  - injection H as <- <-. cbn [fst snd]. repeat split; auto. intros j Hj. lia.
  - cbn [seq for_state] in H. apply bind_Ok in H as ([mean1 std1] & w1 & H1 & H).
    apply lift_Ok in H1 as [H1 ->].
    apply refit_Ok in H1 as (ups & mean_a & std_a & Hu & Hne & Hm & Hs & -> & ->).
    apply IH in H as (-> & Lm & Ls & Hout & Hin).
    rewrite length_insert in Lm, Ls.
    split; [reflexivity|]. split; [exact Lm|]. split; [exact Ls|]. split.
    + intros j Hj. destruct (Hout j) as [E1 E2]; [lia|].
      rewrite E1, E2, !list_lookup_insert_ne by lia. auto.
    + intros j Hj. destruct (decide (j = a)) as [->|Hne'].
      * destruct (Hout a) as [E1 E2]; [lia|].
        exists ups, mean_a, std_a. rewrite E1, E2.
        rewrite !list_lookup_insert_eq; eauto 10 using lookup_lt_Some.
      * destruct (Hin j) as (ups' & mj & sj & Hu' & Hne'' & Hm' & Hs' & R1 & R2); [lia|].
        rewrite list_lookup_insert_ne in Hm', Hs' by lia.
        exists ups', mj, sj. auto 10.
Qed.

Lemma py_slice_to_positive {A} (l : list A) n :
  (0 < n)%Z -> py_slice_to l n = take (Z.to_nat n) l.
Proof.
  intros H. unfold py_slice_to. destruct (n <? 0)%Z eqn:E; [|reflexivity].
  apply Z.ltb_lt in E. lia.
Qed.

(** What a call of [_update] that returns has done. *)
Lemma cem_update_Ok np_sqrt self agents function mean std w agents' mean' std' w' :
  (0 < CEM.n_updates self)%Z ->
  CEM._update np_sqrt self agents function mean std w = Ok ((agents', mean', std'), w') ->
  Permutation agents agents' /\
  StronglySorted (fun l1 l2 => fitness w' l1 <= fitness w' l2) agents' /\
  length mean' = length mean /\ length std' = length std /\
  forall j, (j < length mean)%nat ->
    let elite := variable_over w' j (take (Z.to_nat (CEM.n_updates self)) agents') in
    exists mean_j std_j,
      mean !! j = Some mean_j /\ std !! j = Some std_j /\ elite <> [] /\
      mean' !! j = Some (spec_mean (CEM.alpha self) mean_j elite) /\
      std' !! j = Some (spec_std np_sqrt (CEM.alpha self) std_j
                          (spec_mean (CEM.alpha self) mean_j elite) elite).
Proof.
  intros Hn H. unfold CEM._update in H.
  apply bind_Ok in H as ([] & w1 & _ & H).
  apply bind_Ok in H as (sorted & w2 & H2 & H).
  apply sort_agents_Ok in H2 as (-> & Hperm & Hsorted).
  apply bind_Ok in H as (ps & w3 & H3 & H).
  rewrite py_slice_to_positive in H3 by exact Hn.
  apply positions_Ok in H3 as [-> HF].
  apply bind_Ok in H as (ms & w4 & H4 & H).
  apply refit_loop_Ok in H4 as (-> & Lm & Ls & _ & Hin).
  injection H as <- <- <- <-.
  split; [exact Hperm|]. split; [exact Hsorted|]. split; [exact Lm|].
  split; [exact Ls|]. intros j Hj elite.
  destruct (Hin j) as (ups & mean_j & std_j & Hu & Hne & Hm & Hs & R1 & R2); [lia|].
  apply (variable_slice_Ok _ _ _ _ _ HF) in Hu. fold elite in Hu. subst ups.
  exists mean_j, std_j. auto 10.
Qed.

(** ** [CEM._update] returns *)

Lemma for_each_inv {B} (I : World -> Prop) (l : list B) body w :
  (forall w w', extends w w' -> I w -> I w') ->
  (forall x w, x ∈ l -> I w -> exists w', body x w = Ok (tt, w') /\ extends w w') ->
  I w ->
  exists w', for_each l body w = Ok (tt, w') /\ extends w w'.
Proof.
  intros Hst. revert w. induction l as [|x l IH]; intros w Hb Hi.
  - exists w. split; [reflexivity|apply extends_refl].
  - destruct (Hb x w) as (w1 & H1 & E1); [left|exact Hi|].
    destruct (IH w1) as (w2 & H2 & E2).
    { intros y w0 Hy. apply Hb. now right. }
    { eapply Hst; eauto. }
    exists w2. rewrite for_each_cons, H1. split; [exact H2|].
    eapply extends_trans; eauto.
Qed.

Lemma uniform_extends nv nd w w' agents :
  extends w w' -> uniform nv nd w agents -> uniform nv nd w' agents.
Proof.
  intros He Hu. unfold uniform in *. eapply Forall_impl; [exact Hu|].
  intros l H. by apply He.
Qed.

Lemma uniform_population nv nd w agents : uniform nv nd w agents -> population w agents.
Proof.
  intros Hu. unfold uniform, population in *. eapply Forall_impl; [exact Hu|]. eauto.
Qed.

Lemma shaped_row nv nd (p : list (list Q)) j :
  map length p = replicate nv nd -> (j < nv)%nat ->
  exists row, p !! j = Some row /\ length row = nd.
Proof.
  intros Hs Hj.
  assert (Hl : (map length p) !! j = Some nd).
  { rewrite Hs. apply lookup_replicate. auto. }
  change (map length p) with (length <$> p) in Hl.
  rewrite list_lookup_fmap in Hl.
  destruct (p !! j) as [row|]; [|discriminate]. injection Hl as Hl. eauto.
Qed.

Lemma set_row_safe nv nd w l j v :
  shaped nv nd w l -> (j < nv)%nat -> length v = nd ->
  exists w', set_row l j v w = Ok (tt, w') /\ extends w w'.
Proof.
  intros (a & p & Ho & Ha & Hnv & Hnd & Hs) Hj Hv.
  destruct (shaped_row _ _ _ _ Hs Hj) as (row & Hr & Hlen).
  unfold set_row. rewrite bind_run, (get_agent_run _ _ _ Ho). cbv beta iota.
  rewrite bind_run, (get_array_run _ _ _ Ha). cbv beta iota.
  rewrite bind_run. unfold index. rewrite Hr. cbn [lift]. cbv beta iota.
  rewrite bool_decide_eq_true_2 by congruence.
  eexists. split; [reflexivity|].
  eapply extends_set_array; [reflexivity|reflexivity|exact Ha|].
  change (map length (<[j := v]> p)) with (length <$> <[j := v]> p).
  rewrite list_fmap_insert. apply list_insert_id.
  rewrite list_lookup_fmap, Hr. cbn. congruence.
Qed.

Lemma enumerate_lookup {A} (l : list A) j x :
  (j, x) ∈ enumerate l -> (j < length l)%nat.
Proof.
  unfold enumerate. intros H. apply list_elem_of_lookup in H as [i Hi].
  apply lookup_zip_with_Some in Hi as (a & b & [= <- <-] & Ha & Hb).
  apply lookup_seq in Ha as [-> ?]. lia.
Qed.

Lemma cem_resample_safe function mean std nv nd w l :
  (length mean <= nv)%nat ->
  shaped nv nd w l ->
  exists w', CEM.resample function mean std l w = Ok (tt, w') /\ extends w w'.
Proof.
  intros Hlen Hs. unfold CEM.resample.
  match goal with
  | |- context [for_each ?ls ?body] =>
      destruct (for_each_inv (fun w => shaped nv nd w l) ls body w) as (w1 & H1 & E1)
  end.
  { intros w0 w0' He H. by apply He. }
  { intros [j [m s]] w0 Hin Hs0.
    apply enumerate_lookup in Hin. rewrite length_zip in Hin.
    pose proof Hs0 as (a & p & Ho & Ha & Hnv & Hnd & Hsh).
    rewrite bind_run, (get_agent_run _ _ _ Ho). cbv beta iota.
    rewrite bind_run, gaussian_vector_run. cbv beta iota.
    destruct (set_row_safe nv nd (advance (n_dimensions a) w0) l j
                (gaussian_vector (tape w0) (cursor w0) m s (n_dimensions a)))
      as (w0' & H' & E').
    - apply (extends_same_store w0); [reflexivity|reflexivity|exact Hs0].
    - lia.
    - now rewrite gaussian_vector_length.
    - exists w0'. split; [exact H'|].
      eapply extends_trans; [|exact E']. now apply extends_same_store. }
  { exact Hs. }
  rewrite bind_run, H1. cbv beta iota.
  destruct (Agent_clip_by_bound_safe w1 l) as (w2 & H2 & E2); [eauto using E1|].
  rewrite bind_run, H2. cbv beta iota.
  destruct (evaluate_agent_safe function w2 l) as (w3 & H3 & E3).
  { exists nv, nd. apply E2, E1, Hs. }
  exists w3. split; [exact H3|]. eauto using extends_trans.
Qed.

Lemma cem_create_new_samples_safe function mean std nv nd w agents :
  (length mean <= nv)%nat ->
  uniform nv nd w agents ->
  exists w', CEM._create_new_samples agents function mean std w = Ok (tt, w') /\
             extends w w'.
Proof.
  intros Hlen Hu. unfold CEM._create_new_samples.
  apply (for_each_inv (fun w => uniform nv nd w agents)).
  - intros w0 w0'. apply uniform_extends.
  - intros l w0 Hin Hu0. apply (cem_resample_safe _ _ _ nv nd); [exact Hlen|].
    unfold uniform in Hu0. rewrite List.Forall_forall in Hu0.
    apply Hu0. now apply list_elem_of_In.
  - exact Hu.
Qed.

Lemma keyed_safe w agents :
  population w agents -> exists ks, keyed agents w = Ok (ks, w).
Proof.
  induction agents as [|l agents IH]; intros Hp.
  - eexists. reflexivity.
  - apply Forall_cons in Hp as [(nv & nd & a & p & Ho & _) Hp].
    destruct (IH Hp) as (ks & Hks). eexists. cbn [keyed].
    rewrite bind_run, (get_agent_run _ _ _ Ho). cbv beta iota.
    rewrite bind_run, Hks. reflexivity.
Qed.

Lemma sort_agents_safe w agents :
  population w agents -> exists agents', sort_agents agents w = Ok (agents', w).
Proof.
  intros Hp. destruct (keyed_safe w agents Hp) as (ks & Hks).
  eexists. unfold sort_agents. rewrite bind_run, Hks. reflexivity.
Qed.

Lemma positions_safe nv nd w agents :
  uniform nv nd w agents ->
  exists ps, positions agents w = Ok (ps, w) /\
    length ps = length agents /\
    Forall (fun p => map length p = replicate nv nd) ps.
Proof.
  induction agents as [|l agents IH]; intros Hu.
  - exists []. repeat split. constructor.
  - apply Forall_cons in Hu as [(a & p & Ho & Ha & _ & _ & Hs) Hu].
    destruct (IH Hu) as (ps & Hps & Hlen & HF). exists (p :: ps).
    cbn [positions]. rewrite bind_run, (read_position_run _ _ _ _ Ho Ha).
    cbv beta iota. rewrite bind_run, Hps. cbn. auto.
Qed.

Lemma flat_rows_safe nv nd ps j :
  Forall (fun p => map length p = replicate nv nd) ps -> (j < nv)%nat ->
  exists ups, flat_rows ps j = Ok ups /\ length ups = (length ps * nd)%nat.
Proof.
  intros HF Hj. induction HF as [|p ps Hp HF IH].
  - exists []. split; reflexivity.
  - destruct IH as (rest & Hr & Hlen).
    destruct (shaped_row _ _ _ _ Hp Hj) as (row & Hrow & Hl).
    exists (row ++ rest). cbn [flat_rows]. unfold index. rewrite Hrow, Hr.
    split; [reflexivity|]. rewrite length_app. cbn. lia.
Qed.

Lemma refit_safe np_sqrt self nv nd ps j mean std :
  ps <> [] -> (0 < nd)%nat ->
  Forall (fun p => map length p = replicate nv nd) ps ->
  (j < nv)%nat -> (j < length mean)%nat -> (j < length std)%nat ->
  exists ms, CEM.refit np_sqrt self ps j (mean, std) = Ok ms /\
    length (fst ms) = length mean /\ length (snd ms) = length std.
Proof.
  intros Hne Hnd HF Hj Hm Hs.
  destruct (flat_rows_safe _ _ _ _ HF Hj) as (ups & Hu & Hlen).
  assert (Hups : ups <> []).
  { intros ->. destruct ps; [congruence|]. cbn in Hlen. lia. }
  destruct (lookup_lt_is_Some_2 mean j Hm) as [mean_j Em].
  destruct (lookup_lt_is_Some_2 std j Hs) as [std_j Es].
  unfold CEM.refit, variable_slice. destruct ps as [|p0 ps0]; [congruence|].
  rewrite Hu. unfold index at 1. rewrite Em.
  unfold CEM._update_mean, CEM._update_std, np_mean.
  destruct ups as [|u ups]; [congruence|].
  unfold assign at 1. rewrite bool_decide_eq_true_2 by exact Hm.
  unfold index at 1. rewrite list_lookup_insert_eq by exact Hm.
  unfold index at 1. rewrite Es. cbn [map].
  unfold assign. rewrite bool_decide_eq_true_2 by exact Hs.
  eexists. split; [reflexivity|]. cbn [fst snd]. now rewrite !length_insert.
Qed.

Lemma refit_loop_safe np_sqrt self nv nd ps w k : forall a mean std,
  ps <> [] -> (0 < nd)%nat ->
  Forall (fun p => map length p = replicate nv nd) ps ->
  (a + k <= length mean)%nat -> (length mean <= nv)%nat ->
  (length mean <= length std)%nat ->
  exists ms,
    for_state (seq a k) (fun j ms => lift (CEM.refit np_sqrt self ps j ms))
      (mean, std) w = Ok (ms, w).
Proof.
  induction k as [|k IH]; intros a mean std Hne Hnd HF Hk Hm Hs.
  - eexists. reflexivity.
  - cbn [seq for_state].
    destruct (refit_safe np_sqrt self nv nd ps a mean std) as ([mean1 std1] & H1 & L1 & L2);
      try assumption; try lia.
    rewrite bind_run, H1. cbn [lift fst snd] in *. cbv beta iota.
    apply IH; try assumption; lia.
Qed.

Lemma cem_update_safe np_sqrt self agents function mean std nv nd w :
  (0 < CEM.n_updates self)%Z ->
  agents <> [] -> (0 < nd)%nat ->
  (length mean <= nv)%nat -> (length mean <= length std)%nat ->
  uniform nv nd w agents ->
  exists r w', CEM._update np_sqrt self agents function mean std w = Ok (r, w') /\
               extends w w'.
Proof.
  intros Hn Hne Hnd Hm Hs Hu. unfold CEM._update.
  destruct (cem_create_new_samples_safe function mean std nv nd w agents Hm Hu)
    as (w1 & H1 & E1).
  rewrite bind_run, H1. cbv beta iota.
  pose proof (uniform_extends _ _ _ _ _ E1 Hu) as Hu1.
  destruct (sort_agents_safe w1 agents (uniform_population _ _ _ _ Hu1)) as (agents' & H2).
  rewrite bind_run, H2. cbv beta iota.
  apply sort_agents_Ok in H2 as (_ & Hperm & _).
  rewrite py_slice_to_positive by exact Hn.
  assert (Hu' : uniform nv nd w1 (take (Z.to_nat (CEM.n_updates self)) agents')).
  { unfold uniform in *. apply Forall_take. eapply Permutation_Forall; eauto. }
  destruct (positions_safe _ _ _ _ Hu') as (ps & H3 & Hlen & HF).
  rewrite bind_run, H3. cbv beta iota.
  assert (Hps : ps <> []).
  { intros ->. cbn in Hlen. symmetry in Hlen. rewrite length_take in Hlen.
    apply Permutation_length in Hperm. destruct agents; [congruence|].
    cbn in Hperm. lia. }
  destruct (refit_loop_safe np_sqrt self nv nd ps w1 (length mean) 0 mean std)
    as (ms & H4); try assumption; try lia.
  rewrite bind_run, H4. cbv beta iota.
  eexists _, w1. split; [reflexivity|exact E1].
Qed.

(** ** [CEM.run] *)

Lemma cem_update_sorts np_sqrt self agents function mean std w agents' mean' std' w' :
  CEM._update np_sqrt self agents function mean std w = Ok ((agents', mean', std'), w') ->
  Permutation agents agents' /\
  StronglySorted (fun l1 l2 => fitness w' l1 <= fitness w' l2) agents'.
Proof.
  intros H. unfold CEM._update in H.
  apply bind_Ok in H as ([] & w1 & _ & H).
  apply bind_Ok in H as (sorted & w2 & H2 & H).
  apply sort_agents_Ok in H2 as (-> & Hperm & Hsorted).
  apply bind_Ok in H as (ps & w3 & H3 & H).
  apply positions_Ok in H3 as [-> _].
  apply bind_Ok in H as (ms & w4 & H4 & H).
  apply refit_loop_Ok in H4 as (-> & _).
  injection H as <- _ _ <-. auto.
Qed.

Lemma quiet_cem_initial j lbub ms : quiet (CEM.initial j lbub ms).
Proof. unfold CEM.initial. quiet_steps. Qed.

Lemma cem_iteration_Ok np_sqrt self function hook t s w s' w' :
  CEM.iteration np_sqrt self function hook t s w = Ok (s', w') ->
  Permutation (Space.agents (CEM.space_ s)) (Space.agents (CEM.space_ s')) /\
  Space.n_iterations (CEM.space_ s') = Space.n_iterations (CEM.space_ s) /\
  History.store_best_only (CEM.history_ s') = History.store_best_only (CEM.history_ s) /\
  (exists r, History.records (CEM.history_ s') = History.records (CEM.history_ s) ++ [r]) /\
  (hook_quiet hook -> trace w' = trace w ++ iteration_events).
Proof.
  intros H. unfold CEM.iteration in H.
  apply bind_Ok in H as ([[agents' mean'] std'] & w1 & H1 & H).
  apply call_Ok in H1 as [T1 H1]. apply cem_update_sorts in H1 as [Hperm _].
  apply bind_Ok in H as ([] & w2 & H2 & H).
  apply call_Ok in H2 as [T2 _].
  apply bind_Ok in H as (space & w3 & H3 & H).
  apply call_Ok in H3 as [T3 H3].
  apply evaluate_Ok in H3 as [A3 N3]. cbn [Space.agents Space.n_iterations] in A3, N3.
  apply bind_Ok in H as (history & w4 & H4 & H).
  apply call_Ok in H4 as [T4 H4]. apply dump_Ok in H4 as [S4 R4].
  injection H as <- <-. cbn [CEM.space_ CEM.history_].
  split; [now rewrite A3|]. repeat (split; [assumption|]). intros Hh.
  rewrite T4, T3, T2, T1;
    auto using quiet_dump, quiet_evaluate, quiet_Space_clip_by_bound, quiet_cem_update.
  unfold iteration_events. now rewrite <- !app_assoc.
Qed.

Lemma cem_loop_Ok np_sqrt self function hook k : forall a s w s' w',
  for_state (seq a k) (CEM.iteration np_sqrt self function hook) s w = Ok (s', w') ->
  Permutation (Space.agents (CEM.space_ s)) (Space.agents (CEM.space_ s')) /\
  History.store_best_only (CEM.history_ s') = History.store_best_only (CEM.history_ s) /\
  length (History.records (CEM.history_ s'))
  = (length (History.records (CEM.history_ s)) + k)%nat /\
  (hook_quiet hook -> trace w' = trace w ++ concat (replicate k iteration_events)).
Proof.
  induction k as [|k IH]; intros a s w s' w' H.
  - injection H as <- <-. cbn [replicate concat]. rewrite app_nil_r, Nat.add_0_r. auto.
  - cbn [seq for_state] in H. apply bind_Ok in H as (s1 & w1 & H1 & H).
    apply cem_iteration_Ok in H1 as (P1 & _ & S1 & (r & R1) & T1).
    apply IH in H as (P2 & S2 & R2 & T2).
    split; [|split; [|split]].
    + now rewrite P1.
    + congruence.
    + rewrite R2, R1, length_app. cbn. lia.
    + intros Hh. rewrite (T2 Hh), (T1 Hh). cbn [replicate concat].
      now rewrite <- app_assoc.
Qed.

Lemma cem_run_Ok np_sqrt self space function sbo hook w s w' :
  CEM.run np_sqrt self space function sbo hook w = Ok (s, w') ->
  Permutation (Space.agents space) (Space.agents (CEM.space_ s)) /\
  History.store_best_only (CEM.history_ s) = sbo /\
  length (History.records (CEM.history_ s)) = Space.n_iterations space /\
  (hook_quiet hook ->
   trace w' = trace w ++ run_events sbo (Space.n_iterations space)).
Proof.
  intros H. unfold CEM.run in H.
  apply bind_Ok in H as (ms & w0 & H0 & H).
  assert (T0 : trace w0 = trace w).
  { eapply quiet_for_state; [|exact H0]. intros [j lbub] ms0. apply quiet_cem_initial. }
  apply bind_Ok in H as (space1 & w1 & H1 & H).
  apply call_Ok in H1 as [T1 H1]. apply evaluate_Ok in H1 as [A1 N1].
  apply bind_Ok in H as (history & w2 & H2 & H).
  apply call_Ok in H2 as [T2 H2]. injection H2 as <- _.
  apply cem_loop_Ok in H as (P3 & S3 & R3 & T3).
  cbn [CEM.space_ CEM.history_ History.new History.records
       History.store_best_only] in *.
  rewrite N1 in *. rewrite A1 in P3. repeat (split; [assumption|]).
  intros Hh. rewrite (T3 Hh), T2, T1, T0; auto using quiet_ret, quiet_evaluate.
  unfold run_events. cbn [app]. now rewrite <- !app_assoc.
Qed.





(** ** Averages do not depend on the order *)

Lemma Qsum_perm l l' : Permutation l l' -> Qsum l == Qsum l'.
Proof.
  induction 1 as [|x l l' _ IH|x y l|l l' l'' _ IH1 _ IH2]; cbn [Qsum].
  - reflexivity.
  - now rewrite IH.
  - ring.
  - now rewrite IH1.
Qed.

Lemma concat_perm {A} (ls ls' : list (list A)) :
  Permutation ls ls' -> Permutation (concat ls) (concat ls').
Proof.
  induction 1 as [|x l l' _ IH|x y l|l l' l'' _ IH1 _ IH2]; cbn [concat].
  - reflexivity.
  - now apply Permutation_app_head.
  - rewrite !app_assoc. apply Permutation_app_tail, Permutation_app_comm.
  - now rewrite IH1.
Qed.

Lemma variable_over_perm w j agents agents' :
  Permutation agents agents' ->
  Permutation (variable_over w j agents) (variable_over w j agents').
Proof. intros H. unfold variable_over. now apply concat_perm, Permutation_map. Qed.

Lemma average_perm l l' : Permutation l l' -> average l == average l'.
Proof.
  intros H. unfold average.
  now rewrite (Qsum_perm _ _ H), (Permutation_length H).
Qed.

Lemma spec_mean_no_memory alpha mean elite :
  alpha == 0 -> spec_mean alpha mean elite == average elite.
Proof. intros H. unfold spec_mean. rewrite H. ring. Qed.

(** ** The claims *)



(** C10. The temperature setter accepts 0, as an int and as a float; and
    at temperature 0 a step whose candidate is not strictly better divides
    by zero, and the update pass that contains it with it: the update is
    not total under validated parameters. *)
Theorem sa_zero_temperature_divides_by_zero :
  (forall self, SA.set_T (PyInt 0) self = Ok (SA.mk 0 (SA.beta self))) /\
  (forall self, SA.set_T (PyFloat 0) self = Ok (SA.mk 0 (SA.beta self))) /\
  (forall np_exp py_mul self function w l ag p rest,
     objects w !! l = Some ag ->
     arrays w !! position ag = Some p ->
     map length p = replicate (n_variables ag) (n_dimensions ag) ->
     SA.T self == 0 ->
     ~ function (candidate_position w ag p) < fit ag ->
     SA.step np_exp self function l w = Raise ZeroDivisionError /\
     SA._update np_exp py_mul self (l :: rest) function w = Raise ZeroDivisionError).
Proof.
  split; [reflexivity|]. split; [reflexivity|].
  intros np_exp py_mul self function w l ag p rest Hobj Harr Hshape HT Hge.
  pose proof (step_run np_exp self function w l ag p Hobj Harr Hshape) as Hrun.
  cbv zeta in Hrun. apply Qltb_false_iff in Hge. rewrite Hge in Hrun.
  rewrite (py_div_zero _ _ HT) in Hrun. split; [exact Hrun|].
  unfold SA._update. rewrite bind_run, for_each_cons, Hrun. reflexivity.
Qed.

(** C2. A call of the Cross-Entropy-Method update on a well-shaped,
    non-empty population returns; the population it leaves is the one it
    was given, resampled and sorted ascending by fitness; and for each
    decision variable j, with the elite values the values of that variable
    in the first n_updates agents, the mean becomes alpha * mean[j] +
    (1 - alpha) * average(elite) and the standard deviation becomes
    alpha * std[j] + (1 - alpha) * sqrt(average((elite - new mean[j])^2)),
    the mean in it being the one just computed. *)
Theorem cem_update_refits_mean_then_std np_sqrt self agents function mean std nv nd w :
  (0 < CEM.n_updates self)%Z ->
  agents <> [] -> (0 < nd)%nat ->
  (length mean <= nv)%nat -> (length mean <= length std)%nat ->
  uniform nv nd w agents ->
  exists agents' mean' std' w',
    CEM._update np_sqrt self agents function mean std w
    = Ok ((agents', mean', std'), w') /\
    Permutation agents agents' /\
    StronglySorted (fun l1 l2 => fitness w' l1 <= fitness w' l2) agents' /\
    forall j, (j < length mean)%nat ->
      let elite := variable_over w' j (take (Z.to_nat (CEM.n_updates self)) agents') in
      exists mean_j std_j,
        mean !! j = Some mean_j /\ std !! j = Some std_j /\
        mean' !! j = Some (spec_mean (CEM.alpha self) mean_j elite) /\
        std' !! j = Some (spec_std np_sqrt (CEM.alpha self) std_j
                            (spec_mean (CEM.alpha self) mean_j elite) elite).
Proof.
  intros Hn Hne Hnd Hm Hs Hu.
  destruct (cem_update_safe np_sqrt self agents function mean std nv nd w)
    as ([[agents' mean'] std'] & w' & H & _); try assumption.
  exists agents', mean', std', w'. split; [exact H|].
  apply (cem_update_Ok _ _ _ _ _ _ _ _ _ _ _ Hn) in H as (Hp & Hsort & _ & _ & Hj).
  split; [exact Hp|]. split; [exact Hsort|].
  intros j Hlt elite. destruct (Hj j Hlt) as (mj & sj & E1 & E2 & _ & E3 & E4).
  exists mj, sj. auto.
Qed.



(** C6, amended. The n_updates setter accepts every positive integer,
    whatever the population is going to be; and an update on a population
    smaller than n_updates returns all the same, its elite set being the
    first min(n_updates, population size) agents of the sorted
    population. *)
Theorem cem_elite_is_at_most_the_population np_sqrt self agents function mean std nv nd w :
  (0 < CEM.n_updates self)%Z ->
  agents <> [] -> (0 < nd)%nat ->
  (length mean <= nv)%nat -> (length mean <= length std)%nat ->
  uniform nv nd w agents ->
  CEM.set_n_updates (PyInt (CEM.n_updates self)) self = Ok self /\
  exists agents' mean' std' w',
    CEM._update np_sqrt self agents function mean std w
    = Ok ((agents', mean', std'), w') /\
    length (py_slice_to agents' (CEM.n_updates self))
    = Nat.min (Z.to_nat (CEM.n_updates self)) (length agents).
Proof.
  intros Hn Hne Hnd Hm Hs Hu. split.
  - unfold CEM.set_n_updates, CEM.validate_n_updates. cbn [as_int].
    apply Z.leb_gt in Hn. rewrite Hn. now destruct self.
  - destruct (cem_update_safe np_sqrt self agents function mean std nv nd w)
      as ([[agents' mean'] std'] & w' & H & _); try assumption.
    exists agents', mean', std', w'. split; [exact H|].
    apply cem_update_sorts in H as [Hp _].
    rewrite py_slice_to_positive by exact Hn.
    now rewrite length_take, (Permutation_length Hp).
Qed.

(** C7. With n_updates the size of the population and alpha zero, the
    update returns and for every decision variable the new mean is the
    arithmetic average of the values of that variable over all the agents
    as the update leaves them; the previous mean does not enter. *)
Theorem cem_alpha_zero_mean_is_the_average np_sqrt self agents function mean std nv nd w :
  CEM.n_updates self = Z.of_nat (length agents) ->
  CEM.alpha self == 0 ->
  agents <> [] -> (0 < nd)%nat ->
  (length mean <= nv)%nat -> (length mean <= length std)%nat ->
  uniform nv nd w agents ->
  exists agents' mean' std' w',
    CEM._update np_sqrt self agents function mean std w
    = Ok ((agents', mean', std'), w') /\
    forall j, (j < length mean)%nat ->
      exists m, mean' !! j = Some m /\ m == average (variable_over w' j agents).
Proof.
  intros Hn Ha Hne Hnd Hm Hs Hu.
  assert (Hpos : (0 < CEM.n_updates self)%Z).
  { rewrite Hn. destruct agents; [congruence|]. cbn [length]. lia. }
  destruct (cem_update_safe np_sqrt self agents function mean std nv nd w)
    as ([[agents' mean'] std'] & w' & H & _); try assumption.
  exists agents', mean', std', w'. split; [exact H|].
  apply (cem_update_Ok _ _ _ _ _ _ _ _ _ _ _ Hpos) in H as (Hp & _ & _ & _ & Hj).
  intros j Hlt. destruct (Hj j Hlt) as (mj & sj & _ & _ & _ & E & _).
  eexists. split; [exact E|].
  rewrite spec_mean_no_memory by exact Ha.
  rewrite Hn, Nat2Z.id, take_ge by (rewrite (Permutation_length Hp); lia).
  apply average_perm, variable_over_perm. now symmetry.
Qed.

(** C8, amended. Simulated Annealing keeps the order of the agents: a run
    returns the space with the list of agents it was given, and so does
    every evaluation.  The Cross-Entropy-Method update does not: it sorts
    the agents in place, ascending by fitness, so that the list it leaves
    is a permutation of the one it was given, and so is the list a run
    returns. *)
Theorem order_of_the_agents np_exp py_mul np_sqrt function :
  (forall self space store_best_only pre_evaluate w s w',
     SA.run np_exp py_mul self space function store_best_only pre_evaluate w
     = Ok (s, w') ->
     Space.agents (SA.space_ s) = Space.agents space) /\
  (forall space hook w space' w',
     Optimizer._evaluate space function hook w = Ok (space', w') ->
     Space.agents space' = Space.agents space) /\
  (forall self agents mean std w agents' mean' std' w',
     CEM._update np_sqrt self agents function mean std w
     = Ok ((agents', mean', std'), w') ->
     Permutation agents agents' /\
     StronglySorted (fun l1 l2 => fitness w' l1 <= fitness w' l2) agents') /\
  (forall self space store_best_only pre_evaluate w s w',
     CEM.run np_sqrt self space function store_best_only pre_evaluate w = Ok (s, w') ->
     Permutation (Space.agents space) (Space.agents (CEM.space_ s))).
Proof.
  split; [|split; [|split]].
  - intros self space sbo hook w s w' H. now apply sa_run_Ok in H as (_ & _ & A & _).
  - intros space hook w space' w' H. now apply evaluate_Ok in H as [A _].
  - intros self agents mean std w agents' mean' std' w' H.
    now apply cem_update_sorts in H.
  - intros self space sbo hook w s w' H. now apply cem_run_Ok in H as (P & _).
Qed.

(** ** The claims on the small population *)

Lemma demo_uniform tp : uniform 2 1 (demo_world tp) [1%positive; 2%positive].
Proof.
  repeat constructor.
  - exists (demo_agent 1 25), [[4]; [3]]. repeat split; reflexivity.
  - exists (demo_agent 2 5), [[2]; [1]]. repeat split; reflexivity.
Qed.

Lemma demo_population tp : population (demo_world tp) [1%positive; 2%positive].
Proof. exact (uniform_population _ _ _ _ (demo_uniform tp)). Qed.

Lemma demo_warm : warm exact_mul 100 0.5 3.
Proof.
  split.
  - intros k Hk. destruct k as [|[|[|k]]]; [| | |lia];
      (eexists; split; [reflexivity|]); reflexivity.
  - eexists. split; [reflexivity|]. discriminate.
Qed.




Lemma sa_zero_temperature_divides_by_zero_witness :
  SA.set_T (PyInt 0) (SA.mk 100 0.999) = Ok (SA.mk 0 0.999) /\
  SA.step (fun _ => 1) (SA.mk 0 0.999) sphere 1%positive (demo_world rising)
  = Raise ZeroDivisionError /\
  SA._update (fun _ => 1) exact_mul (SA.mk 0 0.999) [1%positive; 2%positive] sphere
    (demo_world rising)
  = Raise ZeroDivisionError.
Proof.
  destruct sa_zero_temperature_divides_by_zero as (Hset & _ & Hdiv).
  split; [apply Hset|].
  apply (Hdiv (fun _ => 1) exact_mul (SA.mk 0 0.999) sphere (demo_world rising) 1%positive
           (demo_agent 1 25) [[4]; [3]] [2%positive]).
  - reflexivity.
  - reflexivity.
  - reflexivity.
  - reflexivity.
  - intros H. vm_compute in H. discriminate.
Defined.

Lemma setters_validate_at_assignment_witness :
  SA.set_T (PyStr "hot") (SA.mk 100 0.999)
  = Raise (TypeError "`T` should be a float or integer") /\
  SA.set_beta (PyFloat (-0.5)) (SA.mk 100 0.999)
  = Raise (ValueError "`beta` should be >= 0") /\
  CEM.set_alpha (PyInt (-1)) (CEM.mk 5 0.7)
  = Raise (ValueError "`alpha` should be >= 0") /\
  CEM.set_n_updates PyNone (CEM.mk 5 0.7)
  = Raise (TypeError "`n_updates` should be an integer") /\
  CEM.set_n_updates (PyInt (-3)) (CEM.mk 5 0.7)
  = Raise (ValueError "`n_updates` should be > 0").
Proof.
  destruct (setters_validate_at_assignment (PyStr "hot") (SA.mk 100 0.999) (CEM.mk 5 0.7))
    as (Htype & _).
  destruct (setters_validate_at_assignment (PyFloat (-0.5)) (SA.mk 100 0.999) (CEM.mk 5 0.7))
    as (_ & Hneg & _).
  destruct (setters_validate_at_assignment (PyInt (-1)) (SA.mk 100 0.999) (CEM.mk 5 0.7))
    as (_ & Hneg' & _).
  destruct (setters_validate_at_assignment PyNone (SA.mk 100 0.999) (CEM.mk 5 0.7))
    as (_ & _ & Hint & _ & Hle).
  split; [apply Htype; intros []|].
  split; [apply Hneg; reflexivity|].
  split; [apply Hneg'; reflexivity|].
  split; [apply Hint; intros []|].
  apply Hle. lia.
Defined.

Lemma cem_update_refits_mean_then_std_witness :
  exists agents' mean' std' w',
    CEM._update (fun x => x) (CEM.mk 1 0.7) [1%positive; 2%positive] sphere
      [0; 0] [1; 1] (demo_world descending)
    = Ok ((agents', mean', std'), w') /\
    Permutation [1%positive; 2%positive] agents' /\
    forall j, (j < 2)%nat ->
      let elite := variable_over w' j (take 1 agents') in
      exists mean_j std_j,
        [0; 0] !! j = Some mean_j /\ [1; 1] !! j = Some std_j /\
        mean' !! j = Some (spec_mean 0.7 mean_j elite) /\
        std' !! j = Some (spec_std (fun x => x) 0.7 std_j
                            (spec_mean 0.7 mean_j elite) elite).
Proof.
  destruct (cem_update_refits_mean_then_std (fun x => x) (CEM.mk 1 0.7)
              [1%positive; 2%positive] sphere [0; 0] [1; 1] 2 1 (demo_world descending))
    as (agents' & mean' & std' & w' & H & Hp & _ & Hj).
  - reflexivity.
  - discriminate.
  - lia.
  - cbn; lia.
  - cbn; lia.
  - apply demo_uniform.
  - exists agents', mean', std', w'. split; [exact H|]. split; [exact Hp|exact Hj].
Defined.

(** The standard deviation reads the mean of the same iteration: with the
    previous mean in its place its value would be another. *)
Lemma cem_std_reads_the_new_mean :
  exists agents' mean' std' w',
    CEM._update (fun x => x) (CEM.mk 1 0.7) [1%positive; 2%positive] sphere
      [0; 0] [1; 1] (demo_world descending)
    = Ok ((agents', mean', std'), w') /\
    exists s,
      std' !! 0%nat = Some s /\
      let elite := variable_over w' 0 (take 1 agents') in
      s == spec_std (fun x => x) 0.7 1 (spec_mean 0.7 0 elite) elite /\
      ~ s == spec_std (fun x => x) 0.7 1 0 elite.
Proof.
  eexists _, _, _, _. split; [vm_compute; reflexivity|].
  eexists. split; [reflexivity|]. split.
  - vm_compute. reflexivity.
  - intros H. vm_compute in H. discriminate.
Qed.



(** C6, as stated, fails: 5 is accepted as n_updates, the update of a
    population of two agents returns, and its elite set has two agents. *)
Lemma cem_accepts_n_updates_above_the_population :
  CEM.set_n_updates (PyInt 5) (CEM.mk 1 0.7) = Ok (CEM.mk 5 0.7) /\
  (Z.of_nat (length [1%positive; 2%positive]) < CEM.n_updates (CEM.mk 5 0.7))%Z /\
  exists agents' mean' std' w',
    CEM._update (fun x => x) (CEM.mk 5 0.7) [1%positive; 2%positive] sphere
      [0; 0] [1; 1] (demo_world descending)
    = Ok ((agents', mean', std'), w') /\
    length (py_slice_to agents' (CEM.n_updates (CEM.mk 5 0.7))) = 2%nat.
Proof.
  split; [reflexivity|]. split; [reflexivity|].
  eexists _, _, _, _. split; [vm_compute; reflexivity|reflexivity].
Qed.

Lemma cem_elite_is_at_most_the_population_witness :
  exists agents' mean' std' w',
    CEM._update (fun x => x) (CEM.mk 5 0.7) [1%positive; 2%positive] sphere
      [0; 0] [1; 1] (demo_world descending)
    = Ok ((agents', mean', std'), w') /\
    length (py_slice_to agents' 5) = Nat.min 5 2.
Proof.
  destruct (cem_elite_is_at_most_the_population (fun x => x) (CEM.mk 5 0.7)
              [1%positive; 2%positive] sphere [0; 0] [1; 1] 2 1 (demo_world descending))
    as (_ & H).
  - reflexivity.
  - discriminate.
  - lia.
  - cbn; lia.
  - cbn; lia.
  - apply demo_uniform.
  - exact H.
Defined.

Lemma cem_alpha_zero_mean_is_the_average_witness :
  exists agents' mean' std' w',
    CEM._update (fun x => x) (CEM.mk 2 0) [1%positive; 2%positive] sphere
      [7; 9] [1; 1] (demo_world descending)
    = Ok ((agents', mean', std'), w') /\
    forall j, (j < 2)%nat ->
      exists m, mean' !! j = Some m /\
                m == average (variable_over w' j [1%positive; 2%positive]).
Proof.
  apply (cem_alpha_zero_mean_is_the_average (fun x => x) (CEM.mk 2 0)
           [1%positive; 2%positive] sphere [7; 9] [1; 1] 2 1 (demo_world descending)).
  - reflexivity.
  - reflexivity.
  - discriminate.
  - lia.
  - cbn; lia.
  - cbn; lia.
  - apply demo_uniform.
Defined.

(** C8, as stated, fails: the update of the Cross-Entropy Method is given
    the agents in the order 1, 2 and leaves them in the order 2, 1; and so
    does a run of one iteration. *)
Lemma cem_reorders_the_agents :
  (exists mean' std' w',
     CEM._update (fun x => x) (CEM.mk 1 0.7) [1%positive; 2%positive] sphere
       [0; 0] [1; 1] (demo_world descending)
     = Ok (([2%positive; 1%positive], mean', std'), w')) /\
  (exists s w',
     CEM.run (fun x => x) (CEM.mk 1 0.7)
       (Space.mk [1%positive; 2%positive] 1 2 [-10; -10] [10; 10] ([[0]; [0]], 100))
       sphere true None (demo_world swapping)
     = Ok (s, w') /\
     Space.agents (CEM.space_ s) = [2%positive; 1%positive]).
Proof.
  split.
  - eexists _, _, _. vm_compute. reflexivity.
  - eexists _, _. split; [vm_compute; reflexivity|reflexivity].
Qed.

Lemma order_of_the_agents_witness :
  exists s w',
    SA.run (fun _ => 1) exact_mul (SA.mk 100 0.5) demo_space sphere true None
      (demo_world rising)
    = Ok (s, w') /\
    Space.agents (SA.space_ s) = [1%positive; 2%positive].
Proof.
  destruct (order_of_the_agents (fun _ => 1) exact_mul (fun x => x) sphere) as (Hsa & _).
  destruct (sa_run_safe (fun _ => 1) exact_mul (SA.mk 100 0.5) demo_space sphere true None
              (demo_world rising)) as (s & w' & H).
  - exact I.
  - exact demo_warm.
  - apply demo_population.
  - exists s, w'. split; [exact H|]. exact (Hsa _ _ _ _ _ _ _ H).
Defined.

(** * Further properties *)

(** ** Simulated Annealing: what a step touches *)

Lemma sa_step_Ok np_exp self function w l ag p w' :
  objects w !! l = Some ag ->
  arrays w !! position ag = Some p ->
  map length p = replicate (n_variables ag) (n_dimensions ag) ->
  SA.step np_exp self function l w = Ok (tt, w') ->
  w' = tried function w ag p \/ w' = accepted function w l ag p.
Proof.
  intros Hobj Harr Hshape H.
  rewrite (step_run np_exp self function w l ag p Hobj Harr Hshape) in H.
  cbv zeta in H.
  destruct (Qltb _ (fit ag)); [injection H as <-; now right|].
  destruct (py_div _ _); [|discriminate].
  destruct (Qltb _ _); injection H as <-; auto.
Qed.

(** X1. A step of Simulated Annealing that returns, whether it accepted or
    rejected its candidate, has changed no other agent object and no array
    that existed before it: the incumbents' arrays are never written in
    place.  It has read the tape and recorded no call. *)
Theorem sa_step_touches_one_agent np_exp self function w l ag p w' :
  objects w !! l = Some ag ->
  arrays w !! position ag = Some p ->
  map length p = replicate (n_variables ag) (n_dimensions ag) ->
  SA.step np_exp self function l w = Ok (tt, w') ->
  (forall l' a', l' <> l -> objects w !! l' = Some a' -> objects w' !! l' = Some a') /\
  (forall q x, arrays w !! q = Some x -> arrays w' !! q = Some x) /\
  tape w' = tape w /\ trace w' = trace w.
Proof.
  intros Hobj Harr Hshape H.
  destruct (sa_step_Ok _ _ _ _ _ _ _ _ Hobj Harr Hshape H) as [-> | ->].
  - split; [intros; by apply tried_object|]. split; [intros; by apply tried_array|].
    split; reflexivity.
  - split; [intros; by apply accepted_object|]. split; [intros; by apply accepted_array|].
    split; reflexivity.
Qed.

Lemma sa_step_touches_one_agent_witness :
  let w' := tried sphere (demo_world rising) (demo_agent 1 25) [[4]; [3]] in
  SA.step (fun _ => 1) (SA.mk 100 0.999) sphere 1%positive (demo_world rising)
  = Ok (tt, w') /\
  objects w' !! 2%positive = Some (demo_agent 2 5) /\
  arrays w' !! 2%positive = Some [[2]; [1]] /\
  arrays w' !! 1%positive = Some [[4]; [3]].
Proof.
  intros w'.
  assert (H : SA.step (fun _ => 1) (SA.mk 100 0.999) sphere 1%positive (demo_world rising)
              = Ok (tt, w')) by (vm_compute; reflexivity).
  split; [exact H|].
  destruct (sa_step_touches_one_agent (fun _ => 1) (SA.mk 100 0.999) sphere
              (demo_world rising) 1%positive (demo_agent 1 25) [[4]; [3]] w')
    as (Hobjs & Harrs & _); [reflexivity|reflexivity|reflexivity|exact H|].
  split; [apply Hobjs; [discriminate|reflexivity]|].
  split; apply Harrs; reflexivity.
Defined.

(** X2. A candidate that is strictly better is committed by copy: the
    agent is given a position array that did not exist before, distinct
    from the candidate's own array, with the candidate's contents and
    fitness, while the array the agent had keeps its contents. *)
Theorem sa_accept_commits_a_copy np_exp self function w l ag p :
  objects w !! l = Some ag ->
  arrays w !! position ag = Some p ->
  map length p = replicate (n_variables ag) (n_dimensions ag) ->
  let cand := candidate_position w ag p in
  function cand < fit ag ->
  exists w' a pa pb,
    SA.step np_exp self function l w = Ok (tt, w') /\
    objects w !! a = None /\ arrays w !! pa = None /\ arrays w !! pb = None /\
    pa <> pb /\
    objects w' !! a = Some (mkAgent (n_variables ag) (n_dimensions ag) pa
                              (function cand) (lb ag) (ub ag)) /\
    objects w' !! l = Some (mkAgent (n_variables ag) (n_dimensions ag) pb
                              (function cand) (lb ag) (ub ag)) /\
    arrays w' !! pa = Some cand /\ arrays w' !! pb = Some cand /\
    arrays w' !! position ag = Some p.
Proof.
  intros Hobj Harr Hshape cand Hlt.
  pose proof (step_run np_exp self function w l ag p Hobj Harr Hshape) as Hrun.
  cbv zeta in Hrun. fold cand in Hrun. apply Qltb_lt in Hlt. rewrite Hlt in Hrun.
  set (a := fresh (dom (objects w))). set (pa := fresh (dom (arrays w))).
  set (pb := fresh (dom (arrays (tried function w ag p)))).
  assert (Hpa : arrays (tried function w ag p) !! pa = Some cand).
  { unfold tried; world. apply lookup_insert_eq. }
  assert (Hab : pb <> pa) by (eapply fresh_array_ne; exact Hpa).
  assert (Hal : a <> l) by (eapply fresh_object_ne; exact Hobj).
  exists (accepted function w l ag p), a, pa, pb.
  split; [exact Hrun|].
  split; [apply not_elem_of_dom, is_fresh|].
  split; [apply not_elem_of_dom, is_fresh|].
  split.
  { destruct (arrays w !! pb) as [x|] eqn:E; [|reflexivity].
    exfalso. eapply (fresh_array_ne (arrays (tried function w ag p)) pb x); [|reflexivity].
    by apply tried_array. }
  split; [congruence|].
  unfold accepted; world. fold cand pb.
  split.
  { rewrite lookup_insert_ne by congruence. unfold tried; world. apply lookup_insert_eq. }
  split; [apply lookup_insert_eq|].
  split; [rewrite lookup_insert_ne by exact Hab; exact Hpa|].
  split; [apply lookup_insert_eq|].
  rewrite lookup_insert_ne.
  - by apply tried_array.
  - eapply fresh_array_ne. by apply tried_array.
Qed.

Lemma sa_accept_commits_a_copy_witness :
  exists w' a pa pb,
    SA.step (fun _ => 1) (SA.mk 100 0.999) sphere 1%positive (demo_world falling)
    = Ok (tt, w') /\
    pa <> pb /\
    position <$> objects w' !! a = Some pa /\
    position <$> objects w' !! 1%positive = Some pb /\
    arrays w' !! pa = arrays w' !! pb /\
    arrays w' !! 1%positive = Some [[4]; [3]].
Proof.
  destruct (sa_accept_commits_a_copy (fun _ => 1) (SA.mk 100 0.999) sphere
              (demo_world falling) 1%positive (demo_agent 1 25) [[4]; [3]])
    as (w' & a & pa & pb & H & _ & _ & _ & Hne & Ha & Hl & Hpa & Hpb & Hold);
    [reflexivity|reflexivity|reflexivity|vm_compute; reflexivity|].
  exists w', a, pa, pb. split; [exact H|]. split; [exact Hne|].
  rewrite Ha, Hl, Hpa, Hpb. split; [reflexivity|]. split; [reflexivity|].
  split; [reflexivity|exact Hold].
Defined.

(** ** Simulated Annealing: what a pass keeps *)

Lemma tried_current function w ag p l0 :
  current function w l0 -> current function (tried function w ag p) l0.
Proof.
  intros (a & x & Ho & Ha & Hf). exists a, x.
  split; [by apply tried_object|]. split; [by apply tried_array|exact Hf].
Qed.

Lemma accepted_current function w l ag p l0 :
  current function w l0 -> current function (accepted function w l ag p) l0.
Proof.
  intros (a & x & Ho & Ha & Hf). destruct (decide (l0 = l)) as [->|Hne].
  - destruct (accepted_agent_at function w l ag p) as (a' & Ho' & Ha' & Hf').
    exists a', (candidate_position w ag p). auto.
  - exists a, x. split; [by apply accepted_object|].
    split; [by apply accepted_array|exact Hf].
Qed.

Lemma sa_pass_Ok np_exp self function agents : forall w w',
  population w agents ->
  for_each agents (SA.step np_exp self function) w = Ok (tt, w') ->
  extends w w' /\
  (forall l0, current function w l0 -> current function w' l0) /\
  tape w' = tape w.
Proof.
  induction agents as [|l agents IH]; intros w w' Hp H.
  - injection H as <-. split; [apply extends_refl|auto].
  - apply Forall_cons in Hp as [(nv & nd & ag & p & Ho & Ha & Hnv & Hnd & Hs) Hp].
    subst nv nd. rewrite for_each_cons in H.
    destruct (SA.step np_exp self function l w) as [[[] w1]|] eqn:E; [|discriminate].
    assert (Hw1 : extends w w1 /\
                  (forall l0, current function w l0 -> current function w1 l0) /\
                  tape w1 = tape w).
    { destruct (sa_step_Ok _ _ _ _ _ _ _ _ Ho Ha Hs E) as [-> | ->].
      - split; [apply tried_extends|]. split; [intros; by apply tried_current|reflexivity].
      - split; [by apply accepted_extends|].
        split; [intros; by apply accepted_current|reflexivity]. }
    destruct Hw1 as (E1 & C1 & T1).
    destruct (IH w1 w' (population_extends _ _ _ E1 Hp) H) as (E2 & C2 & T2).
    split; [eapply extends_trans; eauto|]. split; [auto|congruence].
Qed.

(** X3. A pass of the Simulated-Annealing update keeps the fitness of every
    agent current: an agent whose fitness was the objective at its position
    before the pass has a fitness that is the objective at its position
    after it, accepted or not, and this whether or not agents share
    position arrays. *)
Theorem sa_update_keeps_fitness_current np_exp py_mul self agents function w self' w' :
  population w agents ->
  SA._update np_exp py_mul self agents function w = Ok (self', w') ->
  forall l, current function w l -> current function w' l.
Proof.
  intros Hp H. apply sa_update_Ok in H as [H _].
  now apply (sa_pass_Ok _ _ _ _ _ _ Hp) in H as (_ & C & _).
Qed.

Lemma demo_current tp l : l ∈ [1%positive; 2%positive] -> current sphere (demo_world tp) l.
Proof.
  intros H. apply elem_of_cons in H as [->|H]; [|apply list_elem_of_singleton in H as ->].
  - exists (demo_agent 1 25), [[4]; [3]]. repeat split; reflexivity.
  - exists (demo_agent 2 5), [[2]; [1]]. repeat split; reflexivity.
Qed.

Lemma sa_update_keeps_fitness_current_witness :
  exists self' w',
    SA._update (fun _ => 4) exact_mul (SA.mk 100 0.5) [1%positive; 2%positive] sphere
      (demo_world rising) = Ok (self', w') /\
    current sphere w' 1%positive /\ current sphere w' 2%positive.
Proof.
  destruct (sa_update_safe (fun _ => 4) exact_mul (SA.mk 100 0.5)
              [1%positive; 2%positive] sphere (demo_world rising) (100 * 0.5))
    as (w' & H & _);
    [reflexivity|reflexivity|discriminate|apply demo_population|].
  eexists _, w'. split; [exact H|].
  pose proof (sa_update_keeps_fitness_current (fun _ => 4) exact_mul (SA.mk 100 0.5)
                [1%positive; 2%positive] sphere (demo_world rising) _ w'
                (demo_population rising) H) as Hc.
  split; apply Hc, demo_current; [left|right; left].
Defined.

Lemma sa_pass_cursor np_exp self function nv nd agents : forall w w',
  uniform nv nd w agents ->
  for_each agents (SA.step np_exp self function) w = Ok (tt, w') ->
  cursor w' = (cursor w + length agents * (nv * nd + 1))%nat.
Proof.
  induction agents as [|l agents IH]; intros w w' Hu H.
  - injection H as <-. cbn. lia.
  - apply Forall_cons in Hu as [(ag & p & Ho & Ha & Hnv & Hnd & Hs) Hu].
    rewrite for_each_cons in H.
    destruct (SA.step np_exp self function l w) as [[[] w1]|] eqn:E; [|discriminate].
    subst nv nd.
    assert (Hw1 : extends w w1 /\
                  cursor w1 = (cursor w + n_variables ag * n_dimensions ag + 1)%nat).
    { destruct (sa_step_Ok _ _ _ _ _ _ _ _ Ho Ha Hs E) as [-> | ->].
      - split; [apply tried_extends|reflexivity].
      - split; [by apply accepted_extends|reflexivity]. }
    destruct Hw1 as (E1 & C1).
    rewrite (IH w1 w' (uniform_extends _ _ _ _ _ E1 Hu) H), C1. cbn [length]. lia.
Qed.

(** X4. A pass of the Simulated-Annealing update over k agents of shape
    (nv, nd) reads exactly k * (nv * nd + 1) outcomes of the random source:
    the noise and one uniform number per agent, the uniform number also
    when the candidate is strictly better and the number is not used. *)
Theorem sa_update_reads_the_same_number_of_outcomes np_exp py_mul self agents
    function nv nd w self' w' :
  uniform nv nd w agents ->
  SA._update np_exp py_mul self agents function w = Ok (self', w') ->
  cursor w' = (cursor w + length agents * (nv * nd + 1))%nat.
Proof.
  intros Hu H. apply sa_update_Ok in H as [H _].
  exact (sa_pass_cursor _ _ _ _ _ _ _ _ Hu H).
Qed.

Lemma sa_update_reads_the_same_number_of_outcomes_witness :
  exists self' w',
    SA._update (fun _ => 1) exact_mul (SA.mk 100 0.5) [1%positive; 2%positive] sphere
      (demo_world falling) = Ok (self', w') /\
    cursor w' = 6%nat.
Proof.
  destruct (sa_update_safe (fun _ => 1) exact_mul (SA.mk 100 0.5)
              [1%positive; 2%positive] sphere (demo_world falling) (100 * 0.5))
    as (w' & H & _);
    [reflexivity|reflexivity|discriminate|apply demo_population|].
  eexists _, w'. split; [exact H|].
  exact (sa_update_reads_the_same_number_of_outcomes _ _ _ _ _ _ _ _ _ _
           (demo_uniform falling) H).
Defined.

(** ** Simulated Annealing: the temperature stays valid *)

Lemma sa_iteration_nonneg np_exp py_mul function hook t s w s' w' :
  SA.iteration np_exp py_mul function hook t s w = Ok (s', w') ->
  0 <= SA.T (SA.self_ s').
Proof.
  intros H. apply sa_iteration_Ok in H as ((p & _ & Hp & ->) & _). exact Hp.
Qed.

Lemma sa_loop_nonneg np_exp py_mul function hook k : forall a s w s' w',
  0 <= SA.T (SA.self_ s) ->
  for_state (seq a k) (SA.iteration np_exp py_mul function hook) s w = Ok (s', w') ->
  0 <= SA.T (SA.self_ s').
Proof.
  induction k as [|k IH]; intros a s w s' w' H0 H.
  - now injection H as <- _.
  - cbn [seq for_state] in H. apply bind_Ok in H as (s1 & w1 & H1 & H).
    apply sa_iteration_nonneg in H1. exact (IH _ _ _ _ _ H1 H).
Qed.

(** X5. The temperature of the optimizer is never left negative, however
    the product is rounded: the decay assigns through the setter, so an
    update pass that returns leaves a temperature of at least zero, and a
    run started at a temperature of at least zero returns one.  Zero
    itself is not excluded. *)
Theorem sa_temperature_is_never_negative np_exp py_mul function :
  (forall self agents w self' w',
     SA._update np_exp py_mul self agents function w = Ok (self', w') ->
     0 <= SA.T self') /\
  (forall self space store_best_only pre_evaluate w s w',
     0 <= SA.T self ->
     SA.run np_exp py_mul self space function store_best_only pre_evaluate w
     = Ok (s, w') ->
     0 <= SA.T (SA.self_ s)).
Proof.
  split.
  - intros self agents w self' w' H.
    apply sa_update_Ok in H as (_ & p & _ & Hp & ->). exact Hp.
  - intros self space sbo hook w s w' H0 H. unfold SA.run in H.
    apply bind_Ok in H as (space1 & w1 & _ & H).
    apply bind_Ok in H as (history & w2 & _ & H).
    eapply sa_loop_nonneg; [|exact H]. exact H0.
Qed.

Lemma sa_temperature_is_never_negative_witness :
  exists s w',
    SA.run (fun _ => 1) exact_mul (SA.mk 100 0.5) demo_space sphere true None
      (demo_world rising)
    = Ok (s, w') /\
    0 <= SA.T (SA.self_ s).
Proof.
  destruct (sa_temperature_is_never_negative (fun _ => 1) exact_mul sphere)
    as (_ & Hrun).
  destruct (sa_run_safe (fun _ => 1) exact_mul (SA.mk 100 0.5) demo_space sphere true
              None (demo_world rising)) as (s & w' & H);
    [exact I|exact demo_warm|apply demo_population|].
  exists s, w'. split; [exact H|].
  apply (Hrun (SA.mk 100 0.5) demo_space true None (demo_world rising) s w');
    [discriminate|exact H].
Defined.

(** ** The setters compose *)

(** X6. The two setters of Simulated Annealing are independent: each leaves
    the other attribute as it was, so that they can be called in either
    order with the same result; what they store is at least zero, and
    assigning a stored temperature again is accepted and changes
    nothing. *)
Theorem sa_setters_are_independent v1 v2 self s1 s2 :
  SA.set_T v1 self = Ok s1 ->
  SA.set_beta v2 s1 = Ok s2 ->
  SA.beta s1 = SA.beta self /\ SA.T s2 = SA.T s1 /\
  (exists s1', SA.set_beta v2 self = Ok s1' /\ SA.set_T v1 s1' = Ok s2) /\
  0 <= SA.T s2 /\ 0 <= SA.beta s2 /\
  SA.set_T (PyFloat (SA.T s2)) s2 = Ok s2.
Proof.
  unfold SA.set_T, SA.set_beta, SA.validate_T, SA.validate_beta.
  destruct (as_float_or_int v1) as [q1|]; [|discriminate].
  destruct (Qltb q1 0) eqn:E1; [discriminate|]. intros [= <-].
  destruct (as_float_or_int v2) as [q2|]; [|discriminate].
  destruct (Qltb q2 0) eqn:E2; [discriminate|]. intros [= <-].
  cbn [SA.T SA.beta as_float_or_int]. rewrite E1.
  split; [reflexivity|]. split; [reflexivity|].
  split; [eexists; split; reflexivity|].
  apply Qltb_ge in E1, E2. auto.
Qed.

Lemma sa_setters_are_independent_witness :
  SA.set_T (PyInt 50) (SA.mk 100 0.999) = Ok (SA.mk 50 0.999) /\
  SA.set_beta (PyFloat 0.9) (SA.mk 50 0.999) = Ok (SA.mk 50 0.9) /\
  exists s1', SA.set_beta (PyFloat 0.9) (SA.mk 100 0.999) = Ok s1' /\
              SA.set_T (PyInt 50) s1' = Ok (SA.mk 50 0.9).
Proof.
  split; [reflexivity|]. split; [reflexivity|].
  destruct (sa_setters_are_independent (PyInt 50) (PyFloat 0.9) (SA.mk 100 0.999)
              (SA.mk 50 0.999) (SA.mk 50 0.9)) as (_ & _ & H & _);
    [reflexivity|reflexivity|exact H].
Defined.

(** X7. The two setters of the Cross-Entropy Method are independent in the
    same way; what they store is a positive number of updates and a
    learning rate of at least zero, with no upper bound on either. *)
Theorem cem_setters_are_independent v1 v2 self s1 s2 :
  CEM.set_n_updates v1 self = Ok s1 ->
  CEM.set_alpha v2 s1 = Ok s2 ->
  CEM.alpha s1 = CEM.alpha self /\ CEM.n_updates s2 = CEM.n_updates s1 /\
  (exists s1', CEM.set_alpha v2 self = Ok s1' /\ CEM.set_n_updates v1 s1' = Ok s2) /\
  (0 < CEM.n_updates s2)%Z /\ 0 <= CEM.alpha s2 /\
  (forall z q, (0 < z)%Z -> 0 <= q ->
     exists s, CEM.set_n_updates (PyInt z) s2 = Ok s /\
               CEM.set_alpha (PyFloat q) s = Ok (CEM.mk z q)).
Proof.
  unfold CEM.set_n_updates, CEM.set_alpha, CEM.validate_n_updates, CEM.validate_alpha.
  destruct (as_int v1) as [z1|]; [|discriminate].
  destruct (z1 <=? 0)%Z eqn:E1; [discriminate|]. intros [= <-].
  destruct (as_float_or_int v2) as [q2|]; [|discriminate].
  destruct (Qltb q2 0) eqn:E2; [discriminate|]. intros [= <-].
  cbn [CEM.n_updates CEM.alpha as_int as_float_or_int].
  split; [reflexivity|]. split; [reflexivity|].
  split; [eexists; split; reflexivity|].
  apply Z.leb_gt in E1. apply Qltb_ge in E2. split; [exact E1|]. split; [exact E2|].
  intros z q Hz Hq. apply Z.leb_gt in Hz. apply Qltb_ge in Hq.
  rewrite Hz. eexists. split; [reflexivity|]. cbn [CEM.n_updates]. now rewrite Hq.
Qed.

Lemma cem_setters_are_independent_witness :
  exists s1',
    CEM.set_alpha (PyFloat 3) (CEM.mk 5 0.7) = Ok s1' /\
    CEM.set_n_updates (PyBool true) s1' = Ok (CEM.mk 1 3).
Proof.
  destruct (cem_setters_are_independent (PyBool true) (PyFloat 3) (CEM.mk 5 0.7)
              (CEM.mk 1 0.7) (CEM.mk 1 3)) as (_ & _ & H & _);
    [reflexivity|reflexivity|exact H].
Defined.

(** ** Cross-Entropy Method: the sort *)

Lemma cem_update_inv np_sqrt self agents function mean std w agents' mean' std' w' :
  CEM._update np_sqrt self agents function mean std w = Ok ((agents', mean', std'), w') ->
  exists ps,
    CEM._create_new_samples agents function mean std w = Ok (tt, w') /\
    sort_agents agents w' = Ok (agents', w') /\
    positions (py_slice_to agents' (CEM.n_updates self)) w' = Ok (ps, w') /\
    for_state (seq 0 (length mean))
      (fun j ms => lift (CEM.refit np_sqrt self ps j ms)) (mean, std) w'
    = Ok ((mean', std'), w').
Proof.
  intros H. unfold CEM._update in H.
  apply bind_Ok in H as ([] & w1 & H1 & H).
  apply bind_Ok in H as (sorted & w2 & H2 & H).
  pose proof (sort_agents_Ok _ _ _ _ H2) as (-> & _).
  apply bind_Ok in H as (ps & w3 & H3 & H).
  pose proof (positions_Ok _ _ _ _ H3) as (-> & _).
  apply bind_Ok in H as ([mean1 std1] & w4 & H4 & H).
  pose proof (refit_loop_Ok _ _ _ _ _ _ _ _ _ _ H4) as (-> & _).
  injection H as <- <- <- <-. exists ps. auto.
Qed.

Lemma insert_by_key_of_key {A} k (x : Q * A) l :
  StronglySorted key_le l ->
  of_key k (insert_by_key x l) = of_key k l ++ of_key k [x].
Proof.
  unfold of_key. induction 1 as [|y l Hs IH Hy]; cbn [insert_by_key]; [reflexivity|].
  destruct (Qltb (fst x) (fst y)) eqn:E.
  - apply Qltb_lt in E. cbn [List.filter].
    destruct (Qeq_bool (fst x) k) eqn:Ex; [|now rewrite app_nil_r].
    apply Qeq_bool_iff in Ex.
    assert (Hy' : Qeq_bool (fst y) k = false).
    { apply not_true_iff_false. intros Ey. apply Qeq_bool_iff in Ey. lra. }
    rewrite Hy'.
    assert (Hl : List.filter (fun z : Q * A => Qeq_bool (fst z) k) l = []).
    { clear IH Hs. induction Hy as [|z l Hz Hy IHl]; [reflexivity|]. cbn [List.filter].
      assert (Hz' : Qeq_bool (fst z) k = false).
      { apply not_true_iff_false. intros Ez. apply Qeq_bool_iff in Ez.
        unfold key_le in Hz. lra. }
      now rewrite Hz'. }
    now rewrite Hl.
  - cbn [List.filter]. rewrite IH. now destruct (Qeq_bool (fst y) k).
Qed.

Lemma sort_by_key_acc_of_key {A} k (l : list (Q * A)) : forall acc,
  StronglySorted key_le acc ->
  of_key k (fold_left (fun acc x => insert_by_key x acc) l acc)
  = of_key k acc ++ of_key k l.
Proof.
  induction l as [|x l IH]; intros acc Hs; cbn [fold_left].
  - unfold of_key. cbn. now rewrite app_nil_r.
  - rewrite IH by now apply insert_by_key_sorted.
    rewrite insert_by_key_of_key by exact Hs. rewrite <- app_assoc. f_equal.
    unfold of_key. cbn [List.filter]. now destruct (Qeq_bool (fst x) k).
Qed.

Lemma of_fitness_keyed w k (ks : list (Q * loc)) :
  Forall (fun y => fst y = fitness w (snd y)) ks ->
  of_fitness w k (map snd ks) = map snd (of_key k ks).
Proof.
  unfold of_fitness, of_key. induction 1 as [|y ks Hy _ IH]; [reflexivity|].
  cbn [map List.filter]. rewrite <- Hy, IH. now destruct (Qeq_bool (fst y) k).
Qed.

Lemma sort_agents_stable w agents agents' w' k :
  sort_agents agents w = Ok (agents', w') ->
  of_fitness w k agents' = of_fitness w k agents.
Proof.
  unfold sort_agents. intros H. apply bind_Ok in H as (ks & w1 & H1 & H).
  apply keyed_Ok in H1 as [-> ->]. injection H as <- <-.
  set (ks := map (fun l => (fitness w l, l)) agents).
  assert (Hks : Forall (fun y => fst y = fitness w (snd y)) ks).
  { apply List.Forall_forall. intros x Hx. apply in_map_iff in Hx as (l & <- & _).
    reflexivity. }
  rewrite of_fitness_keyed.
  - unfold sort_by_key. rewrite (sort_by_key_acc_of_key k ks []) by constructor.
    change (of_key k (@nil (Q * loc))) with (@nil (Q * loc)). cbn [app].
    rewrite <- (of_fitness_keyed w k ks Hks).
    unfold ks. rewrite map_map. cbn [snd]. now rewrite map_id.
  - eapply Permutation_Forall; [apply sort_by_key_perm|exact Hks].
Qed.

(** X8. The sort of the Cross-Entropy-Method update is stable: among the
    agents of any one fitness, the order after the update is the order
    before it, so that ties for the elite set go to the agents that came
    first in the population. *)
Theorem cem_update_sort_is_stable np_sqrt self agents function mean std w
    agents' mean' std' w' (k : Q) :
  CEM._update np_sqrt self agents function mean std w = Ok ((agents', mean', std'), w') ->
  of_fitness w' k agents' = of_fitness w' k agents.
Proof.
  intros H. apply cem_update_inv in H as (ps & _ & Hsort & _).
  exact (sort_agents_stable _ _ _ _ _ Hsort).
Qed.

Lemma cem_update_sort_is_stable_witness :
  exists agents' mean' std' w',
    CEM._update (fun x => x) (CEM.mk 1 0.7) [1%positive; 2%positive] sphere
      [0; 0] [1; 1] (demo_world (fun _ => 20))
    = Ok ((agents', mean', std'), w') /\
    of_fitness w' 200 agents' = [1%positive; 2%positive].
Proof.
  destruct (cem_update_safe (fun x => x) (CEM.mk 1 0.7) [1%positive; 2%positive] sphere
              [0; 0] [1; 1] 2 1 (demo_world (fun _ => 20)))
    as ([[agents' mean'] std'] & w' & H & _);
    [reflexivity|discriminate|lia|cbn; lia|cbn; lia|apply demo_uniform|].
  exists agents', mean', std', w'. split; [exact H|].
  rewrite (cem_update_sort_is_stable _ _ _ _ _ _ _ _ _ _ _ 200 H).
  pose proof H as H'. vm_compute in H'. injection H' as _ _ _ <-.
  vm_compute. reflexivity.
Defined.

Lemma sorted_prefix_below {A} (R : A -> A -> Prop) (l : list A) n a b :
  StronglySorted R l -> a ∈ take n l -> b ∈ drop n l -> R a b.
Proof.
  intros Hs. revert n. induction Hs as [|x l Hs IH Hx]; intros n Ha Hb.
  - rewrite take_nil in Ha. now apply elem_of_nil in Ha.
  - destruct n as [|n]; [now apply elem_of_nil in Ha|].
    cbn [take drop] in Ha, Hb. apply elem_of_cons in Ha as [->|Ha].
    + rewrite List.Forall_forall in Hx. apply Hx, list_elem_of_In.
      exact (subseteq_drop n l b Hb).
    + eapply IH; eauto.
Qed.

(** X9. The elite set is the best of the population: when the update
    returns, no agent outside the first n_updates agents has a lower
    fitness than an agent among them. *)
Theorem cem_elite_is_the_best np_sqrt self agents function mean std w
    agents' mean' std' w' a b :
  (0 < CEM.n_updates self)%Z ->
  CEM._update np_sqrt self agents function mean std w = Ok ((agents', mean', std'), w') ->
  a ∈ py_slice_to agents' (CEM.n_updates self) ->
  b ∈ drop (Z.to_nat (CEM.n_updates self)) agents' ->
  fitness w' a <= fitness w' b.
Proof.
  intros Hn H Ha Hb. rewrite py_slice_to_positive in Ha by exact Hn.
  apply cem_update_sorts in H as [_ Hs].
  exact (sorted_prefix_below _ _ _ _ _ Hs Ha Hb).
Qed.

Lemma cem_elite_is_the_best_witness :
  exists agents' mean' std' w',
    CEM._update (fun x => x) (CEM.mk 1 0.7) [1%positive; 2%positive] sphere
      [0; 0] [1; 1] (demo_world descending)
    = Ok ((agents', mean', std'), w') /\
    fitness w' 2%positive <= fitness w' 1%positive.
Proof.
  destruct (cem_update_safe (fun x => x) (CEM.mk 1 0.7) [1%positive; 2%positive] sphere
              [0; 0] [1; 1] 2 1 (demo_world descending))
    as ([[agents' mean'] std'] & w' & H & _);
    [reflexivity|discriminate|lia|cbn; lia|cbn; lia|apply demo_uniform|].
  exists agents', mean', std', w'. split; [exact H|].
  pose proof H as H'. vm_compute in H'. injection H' as <- _ _ _.
  apply (cem_elite_is_the_best (fun x => x) (CEM.mk 1 0.7) [1%positive; 2%positive]
           sphere [0; 0] [1; 1] (demo_world descending)
           [2%positive; 1%positive] mean' std' w' 2%positive 1%positive).
  - reflexivity.
  - exact H.
  - left.
  - left.
Defined.

(** ** Cross-Entropy Method: the refit *)

Lemma average_of_squares_nonneg m l :
  0 <= average (map (fun x => (x - m) ^ 2) l).
Proof.
  unfold average. apply Qmult_le_0_compat.
  - induction l as [|x l IH]; cbn [map Qsum]; [lra|].
    change ((x - m) ^ 2) with ((x - m) * (x - m)).
    set (d := x - m). assert (0 <= d * d) by nra. lra.
  - apply Qinv_le_0_compat. change 0 with (inject_Z 0). rewrite <- Zle_Qle. lia.
Qed.



Lemma cem_refit_Ok np_sqrt self agents function mean std w agents' mean' std' w' :
  CEM._update np_sqrt self agents function mean std w = Ok ((agents', mean', std'), w') ->
  length mean' = length mean /\ length std' = length std /\
  (forall j, (length mean <= j)%nat -> std' !! j = std !! j) /\
  (forall j, (j < length mean)%nat ->
     exists ups mean_j std_j,
       mean !! j = Some mean_j /\ std !! j = Some std_j /\
       mean' !! j = Some (spec_mean (CEM.alpha self) mean_j ups) /\
       std' !! j = Some (spec_std np_sqrt (CEM.alpha self) std_j
                           (spec_mean (CEM.alpha self) mean_j ups) ups)).
Proof.
  intros H. apply cem_update_inv in H as (ps & _ & _ & _ & H).
  apply refit_loop_Ok in H as (_ & Lm & Ls & Hout & Hin). cbn [fst snd] in *.
  split; [exact Lm|]. split; [exact Ls|]. split.
  - intros j Hj. destruct (Hout j) as [_ E]; [lia|exact E].
  - intros j Hj. destruct (Hin j) as (ups & mj & sj & _ & _ & E1 & E2 & E3 & E4); [lia|].
    exists ups, mj, sj. auto.
Qed.

(** X11. With a learning rate between 0 and 1, and a square root that is
    not negative, the update keeps the standard deviations from going
    negative: if none is before the update, none is after it. *)
Theorem cem_std_stays_nonnegative np_sqrt self agents function mean std w
    agents' mean' std' w' :
  (forall x, 0 <= x -> 0 <= np_sqrt x) ->
  0 <= CEM.alpha self -> CEM.alpha self <= 1 ->
  Forall (fun s => 0 <= s) std ->
  CEM._update np_sqrt self agents function mean std w = Ok ((agents', mean', std'), w') ->
  Forall (fun s => 0 <= s) std'.
Proof.
  intros Hsqrt H0 H1 Hstd H. apply cem_refit_Ok in H as (_ & _ & Hout & Hin).
  apply Forall_lookup. intros j s Es.
  destruct (Nat.lt_ge_cases j (length mean)) as [Hj|Hj].
  - destruct (Hin j Hj) as (ups & mj & sj & _ & Esj & _ & E).
    rewrite E in Es. injection Es as <-.
    pose proof (Forall_lookup_1 _ _ _ _ Hstd Esj) as Hsj. cbv beta in Hsj.
    unfold spec_std.
    pose proof (Hsqrt _ (average_of_squares_nonneg
                           (spec_mean (CEM.alpha self) mj ups) ups)) as Hr.
    nra.
  - rewrite (Hout j Hj) in Es. exact (Forall_lookup_1 _ _ _ _ Hstd Es).
Qed.

Lemma cem_std_stays_nonnegative_witness :
  exists agents' mean' std' w',
    CEM._update (fun x => x) (CEM.mk 1 0.7) [1%positive; 2%positive] sphere
      [0; 0] [1; 1] (demo_world descending)
    = Ok ((agents', mean', std'), w') /\
    Forall (fun s => 0 <= s) std'.
Proof.
  destruct (cem_update_safe (fun x => x) (CEM.mk 1 0.7) [1%positive; 2%positive] sphere
              [0; 0] [1; 1] 2 1 (demo_world descending))
    as ([[agents' mean'] std'] & w' & H & _);
    [reflexivity|discriminate|lia|cbn; lia|cbn; lia|apply demo_uniform|].
  exists agents', mean', std', w'. split; [exact H|].
  apply (cem_std_stays_nonnegative (fun x => x) (CEM.mk 1 0.7) [1%positive; 2%positive]
           sphere [0; 0] [1; 1] (demo_world descending) agents' mean' std' w').
  - intros x Hx. exact Hx.
  - discriminate.
  - discriminate.
  - repeat constructor; discriminate.
  - exact H.
Defined.

(** X12. A learning rate of 1 freezes the distribution: whatever was
    sampled, an update that returns leaves every mean and every standard
    deviation equal to what it was. *)
Theorem cem_alpha_one_freezes np_sqrt self agents function mean std w
    agents' mean' std' w' :
  CEM.alpha self == 1 ->
  CEM._update np_sqrt self agents function mean std w = Ok ((agents', mean', std'), w') ->
  Forall2 Qeq mean' mean /\ Forall2 Qeq std' std.
Proof.
  intros Ha H. apply cem_refit_Ok in H as (Lm & Ls & Hout & Hin).
  split; apply Forall2_same_length_lookup_2; try assumption.
  - intros j x y Ex Ey.
    destruct (Hin j) as (ups & mj & sj & Emj & _ & E & _);
      [now apply lookup_lt_Some in Ey|].
    assert (y = mj) by congruence. subst y.
    rewrite E in Ex. injection Ex as <-. unfold spec_mean. rewrite Ha. ring.
  - intros j x y Ex Ey.
    destruct (Nat.lt_ge_cases j (length mean)) as [Hj|Hj].
    + destruct (Hin j Hj) as (ups & mj & sj & _ & Esj & _ & E).
      assert (y = sj) by congruence. subst y.
      rewrite E in Ex. injection Ex as <-. unfold spec_std.
      set (r := np_sqrt _). rewrite Ha. ring.
    + rewrite (Hout j Hj) in Ex. assert (x = y) by congruence. subst. reflexivity.
Qed.

Lemma cem_alpha_one_freezes_witness :
  exists agents' mean' std' w',
    CEM._update (fun x => x) (CEM.mk 1 1) [1%positive; 2%positive] sphere
      [7; 9] [1; 1] (demo_world descending)
    = Ok ((agents', mean', std'), w') /\
    Forall2 Qeq mean' [7; 9] /\ Forall2 Qeq std' [1; 1].
Proof.
  destruct (cem_update_safe (fun x => x) (CEM.mk 1 1) [1%positive; 2%positive] sphere
              [7; 9] [1; 1] 2 1 (demo_world descending))
    as ([[agents' mean'] std'] & w' & H & _);
    [reflexivity|discriminate|lia|cbn; lia|cbn; lia|apply demo_uniform|].
  exists agents', mean', std', w'. split; [exact H|].
  apply (cem_alpha_one_freezes (fun x => x) (CEM.mk 1 1) [1%positive; 2%positive]
           sphere [7; 9] [1; 1] (demo_world descending) agents' mean' std' w');
    [reflexivity|exact H].
Defined.

(** ** Cross-Entropy Method: edges *)

(** X13. On a population of no agents the update raises an index error as
    soon as there is a decision variable to refit, since the array of no
    elite positions cannot be indexed by variable; with no decision
    variable it returns at once and changes nothing. *)
Theorem cem_update_on_no_agents np_sqrt self function mean std w :
  (mean <> [] ->
   CEM._update np_sqrt self [] function mean std w = Raise IndexError) /\
  CEM._update np_sqrt self [] function [] std w = Ok (([], [], std), w).
Proof.
  assert (Hps : forall n : Z, py_slice_to (@nil loc) n = []).
  { intros n. unfold py_slice_to. destruct (n <? 0)%Z; apply take_nil. }
  split.
  - intros Hne. destruct mean as [|m mean]; [congruence|].
    unfold CEM._update, CEM._create_new_samples, sort_agents. cbn [for_each keyed].
    rewrite !bind_run. cbn [ret]. cbv beta iota. rewrite !bind_run. cbn [ret].
    cbv beta iota. cbn [map sort_by_key fold_left]. rewrite Hps.
    cbn [positions]. rewrite bind_run. cbn [ret]. cbv beta iota. reflexivity.
  - unfold CEM._update, CEM._create_new_samples, sort_agents. cbn [for_each keyed].
    rewrite !bind_run. cbn [ret]. cbv beta iota. rewrite !bind_run. cbn [ret].
    cbv beta iota. cbn [map sort_by_key fold_left]. rewrite Hps. reflexivity.
Qed.

Lemma cem_update_on_no_agents_witness :
  CEM._update (fun x => x) (CEM.mk 5 0.7) [] sphere [0; 0] [1; 1] (demo_world rising)
  = Raise IndexError.
Proof.
  apply (cem_update_on_no_agents (fun x => x) (CEM.mk 5 0.7) sphere [0; 0] [1; 1]
           (demo_world rising)).
  discriminate.
Defined.

(** ** Cross-Entropy Method: the fitness after resampling *)

Lemma for_each_rule {B} (J : World -> Prop) (l : list B) body w :
  (forall x w0, x ∈ l -> J w0 -> exists w1, body x w0 = Ok (tt, w1) /\ J w1) ->
  J w ->
  exists w', for_each l body w = Ok (tt, w') /\ J w'.
Proof.
  revert w. induction l as [|x l IH]; intros w Hb Hj.
  - exists w. split; [reflexivity|exact Hj].
  - destruct (Hb x w) as (w1 & H1 & J1); [left|exact Hj|].
    destruct (IH w1) as (w2 & H2 & J2); [|exact J1|].
    { intros y w0 Hy. apply Hb. now right. }
    exists w2. rewrite for_each_cons, H1. auto.
Qed.

Lemma set_row_run w l a (p : list (list Q)) j row v :
  objects w !! l = Some a ->
  arrays w !! position a = Some p ->
  p !! j = Some row -> length row = length v ->
  set_row l j v w
  = Ok (tt, mkWorld (<[position a := <[j := v]> p]> (arrays w)) (objects w)
              (tape w) (cursor w) (trace w)).
Proof.
  intros Ho Ha Hr Hlen. unfold set_row.
  rewrite bind_run, (get_agent_run _ _ _ Ho). cbv beta iota.
  rewrite bind_run, (get_array_run _ _ _ Ha). cbv beta iota.
  rewrite bind_run. unfold index. rewrite Hr. cbn [lift]. cbv beta iota.
  now rewrite bool_decide_eq_true_2.
Qed.

Lemma cem_resample_spec function mean std nv nd w l a (p : list (list Q)) :
  (length mean <= nv)%nat ->
  objects w !! l = Some a ->
  arrays w !! position a = Some p ->
  n_dimensions a = nd ->
  map length p = replicate nv nd ->
  exists w' p',
    CEM.resample function mean std l w = Ok (tt, w') /\
    objects w' = <[l := mkAgent (n_variables a) (n_dimensions a) (position a)
                            (function p') (lb a) (ub a)]> (objects w) /\
    arrays w' = <[position a := p']> (arrays w) /\
    map length p' = replicate nv nd.
Proof.
  intros Hlen Ho Ha Hnd Hs. unfold CEM.resample.
  match goal with
  | |- context [for_each ?ls ?body] =>
      destruct (for_each_rule
                  (fun w0 => objects w0 = objects w /\
                             exists pk : list (list Q),
                               arrays w0 = <[position a := pk]> (arrays w) /\
                               map length pk = replicate nv nd)
                  ls body w) as (w1 & H1 & Ho1 & pk & Ha1 & Hs1)
  end.
  { intros [j [m s]] w0 Hin (Ho0 & pk & Ha0 & Hs0).
    apply enumerate_lookup in Hin. rewrite length_zip in Hin.
    assert (Hl0 : objects w0 !! l = Some a) by (rewrite Ho0; exact Ho).
    assert (Hp0 : arrays w0 !! position a = Some pk)
      by (rewrite Ha0; apply lookup_insert_eq).
    destruct (shaped_row nv nd pk j Hs0) as (row & Hr & Hrl); [lia|].
    rewrite bind_run, (get_agent_run _ _ _ Hl0). cbv beta iota.
    rewrite bind_run, gaussian_vector_run. cbv beta iota.
    erewrite set_row_run; [|exact Hl0|exact Hp0|exact Hr|
                           rewrite gaussian_vector_length; congruence].
    eexists. split; [reflexivity|]. world. split; [exact Ho0|].
    eexists. split; [rewrite Ha0; apply insert_insert_eq|].
    change (map length (<[j := ?v]> pk)) with (length <$> <[j := v]> pk).
    rewrite list_fmap_insert. rewrite <- Hs0. apply list_insert_id.
    rewrite list_lookup_fmap, Hr. cbn. rewrite gaussian_vector_length. congruence. }
  { split; [reflexivity|]. exists p. split; [|exact Hs].
    symmetry. now apply insert_id. }
  assert (Hl1 : objects w1 !! l = Some a) by (rewrite Ho1; exact Ho).
  assert (Hp1 : arrays w1 !! position a = Some pk)
    by (rewrite Ha1; apply lookup_insert_eq).
  rewrite bind_run, H1. cbv beta iota.
  rewrite bind_run, (clip_by_bound_run _ _ _ _ Hl1 Hp1). cbv beta iota.
  rewrite bind_run. erewrite read_position_run;
    [|world; exact Hl1|world; apply lookup_insert_eq].
  cbv beta iota. erewrite set_fit_run by (world; exact Hl1).
  eexists _, (clip_rows pk (lb a) (ub a)). split; [reflexivity|]. world.
  split; [now rewrite Ho1|]. split; [rewrite Ha1; apply insert_insert_eq|].
  now rewrite clip_rows_shape.
Qed.

Lemma cem_pass_current function mean std nv nd agents : forall w,
  (length mean <= nv)%nat ->
  uniform nv nd w agents ->
  unshared w agents ->
  exists w',
    for_each agents (CEM.resample function mean std) w = Ok (tt, w') /\
    Forall (current function w') agents /\
    (forall l0, l0 ∉ agents -> objects w' !! l0 = objects w !! l0) /\
    (forall q, Some q ∉ map (position_of w) agents -> arrays w' !! q = arrays w !! q) /\
    (forall l0, position_of w' l0 = position_of w l0).
Proof.
  induction agents as [|l agents IH]; intros w Hlen Hu Hn.
  - exists w. split; [reflexivity|]. split; [constructor|auto].
  - apply Forall_cons in Hu as [(a & p & Ho & Ha & Hnv & Hnd & Hs) Hu].
    unfold unshared in Hn. cbn [map] in Hn. apply NoDup_cons in Hn as [Hl Hn].
    destruct (cem_resample_spec function mean std nv nd w l a p Hlen Ho Ha Hnd Hs)
      as (w1 & p' & H1 & Ho1 & Ha1 & Hs1).
    destruct (cem_resample_safe function mean std nv nd w l Hlen) as (w1' & H1' & E1).
    { exists a, p. auto. }
    assert (w1' = w1) by congruence. subst w1'.
    assert (Hpos : forall l0, position_of w1 l0 = position_of w l0).
    { intros l0. unfold position_of. rewrite Ho1.
      destruct (decide (l0 = l)) as [->|Hne].
      - now rewrite lookup_insert_eq, Ho.
      - now rewrite lookup_insert_ne by congruence. }
    assert (Hmap : map (position_of w1) agents = map (position_of w) agents)
      by (apply map_ext; exact Hpos).
    destruct (IH w1 Hlen (uniform_extends _ _ _ _ _ E1 Hu)) as (w' & H & C & Fo & Fa & Fp).
    { unfold unshared. now rewrite Hmap. }
    assert (Hlw : position_of w l = Some (position a))
      by (unfold position_of; now rewrite Ho).
    assert (Hnotin : l ∉ agents).
    { intros Hin. apply Hl. apply list_elem_of_In, in_map.
      now apply list_elem_of_In. }
    exists w'. rewrite for_each_cons, H1.
    split; [exact H|]. split; [|split; [|split]].
    + constructor; [|exact C].
      eexists _, p'. rewrite (Fo l Hnotin), Ho1, lookup_insert_eq.
      split; [reflexivity|]. cbn [position fit].
      split; [|reflexivity]. rewrite Fa.
      * rewrite Ha1. apply lookup_insert_eq.
      * rewrite Hmap, <- Hlw. exact Hl.
    + intros l0 Hl0. apply not_elem_of_cons in Hl0 as [Hne Hl0].
      rewrite (Fo l0 Hl0), Ho1. now rewrite lookup_insert_ne by congruence.
    + intros q Hq. cbn [map] in Hq. apply not_elem_of_cons in Hq as [Hne Hq].
      rewrite Fa by (rewrite Hmap; exact Hq). rewrite Ha1.
      rewrite Hlw in Hne. now rewrite lookup_insert_ne by congruence.
    + intros l0. now rewrite Fp, Hpos.
Qed.

(** X14. On a population of distinct agents that share no position array,
    the update of the Cross-Entropy Method leaves every agent with a
    fitness that is the objective at its resampled and clipped position:
    the fitness it sorts by is current. *)
Theorem cem_update_leaves_fitness_current np_sqrt self agents function mean std
    nv nd w agents' mean' std' w' :
  (length mean <= nv)%nat ->
  uniform nv nd w agents ->
  unshared w agents ->
  CEM._update np_sqrt self agents function mean std w = Ok ((agents', mean', std'), w') ->
  Forall (current function w') agents'.
Proof.
  intros Hlen Hu Hn H.
  pose proof (cem_update_sorts _ _ _ _ _ _ _ _ _ _ _ H) as [Hp _].
  apply cem_update_inv in H as (ps & H & _). unfold CEM._create_new_samples in H.
  destruct (cem_pass_current function mean std nv nd agents w Hlen Hu Hn)
    as (w'' & H' & C & _).
  assert (w'' = w') by congruence. subst w''.
  eapply Permutation_Forall; eauto.
Qed.

Lemma demo_unshared tp : unshared (demo_world tp) [1%positive; 2%positive].
Proof.
  unfold unshared. cbn [map]. apply NoDup_cons. split.
  - intros H. apply list_elem_of_singleton in H. vm_compute in H. discriminate.
  - apply NoDup_singleton.
Qed.

Lemma cem_update_leaves_fitness_current_witness :
  exists agents' mean' std' w',
    CEM._update (fun x => x) (CEM.mk 1 0.7) [1%positive; 2%positive] sphere
      [0; 0] [1; 1] (demo_world descending)
    = Ok ((agents', mean', std'), w') /\
    Forall (current sphere w') agents'.
Proof.
  destruct (cem_update_safe (fun x => x) (CEM.mk 1 0.7) [1%positive; 2%positive] sphere
              [0; 0] [1; 1] 2 1 (demo_world descending))
    as ([[agents' mean'] std'] & w' & H & _);
    [reflexivity|discriminate|lia|cbn; lia|cbn; lia|apply demo_uniform|].
  exists agents', mean', std', w'. split; [exact H|].
  apply (cem_update_leaves_fitness_current (fun x => x) (CEM.mk 1 0.7)
           [1%positive; 2%positive] sphere [0; 0] [1; 1] 2 1 (demo_world descending)
           agents' mean' std' w');
    [cbn; lia|apply demo_uniform|apply demo_unshared|exact H].
Defined.


(** ** Cross-Entropy Method: what resampling writes *)

Lemma cem_rows_run nd l a (body : nat * (Q * Q) -> M unit) (ms : list (Q * Q)) :
  (forall j m s, body (j, (m, s))
                 = (ag <- get_agent l ;;
                    v <- generate_gaussian_random_number m s (n_dimensions ag) ;;
                    set_row l j v)) ->
  n_dimensions a = nd ->
  forall j0 (pk : list (list Q)) w0,
    objects w0 !! l = Some a ->
    arrays w0 !! position a = Some pk ->
    Forall (fun row => length row = nd) pk ->
    (j0 + length ms <= length pk)%nat ->
    for_each (zip (seq j0 (length ms)) ms) body w0
    = Ok (tt, mkWorld (<[position a := take j0 pk
                                       ++ gaussian_rows (tape w0) (cursor w0) ms nd
                                       ++ drop (j0 + length ms) pk]> (arrays w0))
                (objects w0) (tape w0) (cursor w0 + length ms * nd) (trace w0)).
Proof.
  intros Hbody Hnd. induction ms as [|[m s] ms IH]; intros j0 pk w0 Ho Ha Hrows Hlen.
  - cbn [length seq zip zip_with for_each gaussian_rows app]. unfold ret.
    rewrite Nat.add_0_r, take_drop, insert_id by exact Ha.
    destruct w0; cbn. do 3 f_equal. lia.
  - cbn [length] in Hlen. cbn [length seq zip zip_with]. rewrite for_each_cons, Hbody.
    rewrite bind_run, (get_agent_run _ _ _ Ho). cbv beta iota.
    rewrite bind_run, gaussian_vector_run. cbv beta iota.
    destruct (lookup_lt_is_Some_2 pk j0) as [row Hr]; [lia|].
    pose proof (Forall_lookup_1 _ _ _ _ Hrows Hr) as Hrl. cbv beta in Hrl.
    erewrite set_row_run; [|exact Ho|exact Ha|exact Hr|
                           rewrite gaussian_vector_length; congruence].
    world. rewrite Hnd.
    set (v := gaussian_vector (tape w0) (cursor w0) m s nd).
    rewrite (IH (S j0) (<[j0 := v]> pk)); world.
    + rewrite insert_insert_eq.
      rewrite (take_S_r (<[j0 := v]> pk) j0 v) by (apply list_lookup_insert_eq; lia).
      rewrite take_insert_ge, drop_insert_lt by lia.
      cbn [gaussian_rows]. fold v. rewrite <- app_assoc. cbn [app].
      replace (j0 + S (length ms))%nat with (S j0 + length ms)%nat by lia.
      replace (cursor w0 + nd + length ms * nd)%nat
        with (cursor w0 + S (length ms) * nd)%nat by lia.
      reflexivity.
    + exact Ho.
    + apply lookup_insert_eq.
    + apply Forall_insert; [exact Hrows|]. unfold v.
      rewrite gaussian_vector_length. reflexivity.
    + rewrite length_insert. lia.
Qed.

(** X15. When every decision variable has a mean and a standard
    deviation, resampling an agent overwrites its whole position: the new
    position is the clipped rows of Gaussian numbers drawn from the
    outcomes at the cursor and does not depend on the position the agent
    had; the fitness is the objective there, and one outcome is read per
    variable and dimension. *)
Theorem cem_resample_overwrites function mean std nv nd w l a (p : list (list Q)) :
  length (zip mean std) = nv ->
  objects w !! l = Some a ->
  arrays w !! position a = Some p ->
  n_dimensions a = nd ->
  map length p = replicate nv nd ->
  let p' := clip_rows (gaussian_rows (tape w) (cursor w) (zip mean std) nd)
              (lb a) (ub a) in
  CEM.resample function mean std l w
  = Ok (tt, mkWorld (<[position a := p']> (arrays w))
              (<[l := mkAgent (n_variables a) (n_dimensions a) (position a)
                        (function p') (lb a) (ub a)]> (objects w))
              (tape w) (cursor w + nv * nd) (trace w)).
Proof.
  intros Hz Ho Ha Hnd Hs p'. unfold CEM.resample, enumerate.
  assert (Hlp : length p = nv).
  { rewrite <- (length_map length p), Hs. apply length_replicate. }
  assert (Hrows : Forall (fun row : list Q => length row = nd) p).
  { apply Forall_lookup. intros j row Hr.
    assert (E : map length p !! j = Some (length row))
      by (change (map length p) with (length <$> p);
          now rewrite list_lookup_fmap, Hr).
    rewrite Hs in E. apply lookup_replicate in E as [E _]. congruence. }
  rewrite bind_run.
  erewrite (cem_rows_run nd l a _ (zip mean std)) with (j0 := 0%nat) (pk := p);
    [|intros; reflexivity|exact Hnd|exact Ho|exact Ha|exact Hrows|lia].
  cbv beta iota. cbn [take app].
  replace (0 + length (zip mean std))%nat with (length p) by lia.
  rewrite drop_all, app_nil_r.
  rewrite bind_run. erewrite clip_by_bound_run;
    [|world; exact Ho|world; apply lookup_insert_eq].
  cbv beta iota. world. rewrite insert_insert_eq.
  rewrite bind_run. erewrite read_position_run;
    [|world; exact Ho|world; apply lookup_insert_eq].
  cbv beta iota. erewrite set_fit_run by (world; exact Ho).
  world. rewrite Hz. reflexivity.
Qed.

Lemma cem_resample_overwrites_witness :
  exists w',
    CEM.resample sphere [1; 1] [2; 2] 1%positive (demo_world descending) = Ok (tt, w') /\
    arrays w' !! 1%positive = Some [[9]; [7]] /\ cursor w' = 2%nat.
Proof.
  eexists. split.
  - apply (cem_resample_overwrites sphere [1; 1] [2; 2] 2 1 (demo_world descending)
             1%positive (demo_agent 1 25) [[4]; [3]]); reflexivity.
  - split; [vm_compute; reflexivity|reflexivity].
Defined.

(** ** Simulated Annealing: a run whose temperature reaches zero *)












